(** * Credit ledger: reservation protocol, sweeper and charge wrapper

    A shallow embedding of the services under [credits/services], of the
    models of [credits/models.py] and of the decorator of
    [credits/decorators.py], followed by the properties of the
    specification.

    The relational store is modelled by a record [World]: the wallet table
    is a finite map from primary key to row, the ledger table is the list of
    its rows in insertion order, and the id sequence of the ledger and the
    wall clock are explicit.  Code that runs inside [transaction.atomic()]
    lives in the monad [Tx]; [atomic] commits or rolls back.  One thread of
    control is modelled: row locks ([select_for_update], [skip_locked]) never
    block or hide a row. Integers are Python integers (the 64-bit range of
    the columns and the length limits of the text columns are not
    modelled). *)

From Stdlib Require Import ZArith Lia List Bool.
From stdpp Require Import base gmap strings list pretty sorting.
Import ListNotations.

Local Open Scope string_scope.
Local Open Scope list_scope.
Local Open Scope Z_scope.

(** ** enums.py *)

Inductive TxStatus := PENDING | COMMITTED | REVERSED.
Inductive TxType := DEBIT | CREDIT | REFUND.

#[global] Instance TxStatus_eq_dec : EqDecision TxStatus.
Proof. solve_decision. Defined.
#[global] Instance TxType_eq_dec : EqDecision TxType.
Proof. solve_decision. Defined.

(** ** models.py *)

(** A [Wallet] row; its primary key is the key of the wallet table. *)
Record Wallet := mkWallet {
  name : string;
  balance : Z;
  updated_at : Z
}.

(** A [CreditTransaction] row. Times are microseconds since the epoch. *)
Record CreditTransaction := mkCreditTransaction {
  tx_id : Z;
  wallet_id : Z;
  delta : Z;
  tx_type : TxType;
  tx_status : TxStatus;
  idempotency_key : option string;
  request_id : option string;
  note : string;
  created_at : Z
}.

Definition with_tx_status (st : TxStatus) (r : CreditTransaction) : CreditTransaction :=
  mkCreditTransaction (tx_id r) (wallet_id r) (delta r) (tx_type r) st
    (idempotency_key r) (request_id r) (note r) (created_at r).

Definition with_note (n : string) (r : CreditTransaction) : CreditTransaction :=
  mkCreditTransaction (tx_id r) (wallet_id r) (delta r) (tx_type r) (tx_status r)
    (idempotency_key r) (request_id r) n (created_at r).

Definition with_balance (b : Z) (w : Wallet) : Wallet :=
  mkWallet (name w) b (updated_at w).

(** ** The store and the exceptions *)

Record World := mkWorld {
  wallets : gmap Z Wallet;
  ledger : list CreditTransaction;
  next_id : Z;   (* the id sequence of the ledger table *)
  clock : Z      (* what timezone.now() returns *)
}.

Inductive Exn :=
  | ValueError (msg : string)
  | InsufficientCredits (msg : string)
  | DoesNotExist
  | MultipleObjectsReturned
  | IntegrityError
  | NegativeIndexing
  | ViewException (cls : string)       (* an Exception raised by a view *)
  | ViewBaseException (cls : string).  (* KeyboardInterrupt, SystemExit, ... *)

(** [isinstance(e, Exception)] *)
Definition is_Exception (e : Exn) : bool :=
  match e with ViewBaseException _ => false | _ => true end.

Inductive Outcome (A : Type) :=
  | Returned (a : A)
  | Raised (e : Exn).
Arguments Returned {A} a.
Arguments Raised {A} e.

(** ** State and exception monad

    A raised exception keeps the state reached so far, as in Python; undoing
    is the work of [atomic]. *)

Definition SE (S A : Type) : Type := S → Outcome A * S.

Definition ret {S A} (a : A) : SE S A := λ s, (Returned a, s).
Definition raise {S A} (e : Exn) : SE S A := λ s, (Raised e, s).
Definition bind {S A B} (m : SE S A) (k : A → SE S B) : SE S B :=
  λ s, match m s with
       | (Returned a, s') => k a s'
       | (Raised e, s') => (Raised e, s')
       end.

Notation "'let!' x := m 'in' k" := (bind m (λ x, k))
  (at level 10, x name, m at level 200, k at level 200).
Notation "'exec!' m 'in' k" := (bind m (λ _, k))
  (at level 10, m at level 200, k at level 200).

(** [try: m except <handler>]: [handler e = None] when no clause matches. *)
Definition try_except {S A} (m : SE S A) (handler : Exn → option (SE S A)) : SE S A :=
  λ s, match m s with
       | (Returned a, s') => (Returned a, s')
       | (Raised e, s') =>
           match handler e with
           | Some k => k s'
           | None => (Raised e, s')
           end
       end.

Fixpoint for_each {S A} (l : list A) (body : A → SE S unit) : SE S unit :=
  match l with
  | [] => ret tt
  | x :: l' => exec! body x in for_each l' body
  end.

(** ** Transactions *)

(** The state of an open transaction: the tables as the transaction sees
    them and the wallet ids of rows inserted so far, whose foreign key is
    checked at commit (Django declares it DEFERRABLE INITIALLY DEFERRED). *)
Record TxState := mkTxState {
  world : World;
  deferred_fk : list Z
}.

Definition Tx (A : Type) : Type := SE TxState A.
Definition Prog (A : Type) : Type := SE World A.

(** Rolling back restores the tables; a sequence is never rolled back. *)
Definition rollback (before now : World) : World :=
  mkWorld (wallets before) (ledger before) (next_id now) (clock now).

Definition fk_holds (w : World) (wid : Z) : bool :=
  bool_decide (is_Some (wallets w !! wid)).

(** [with transaction.atomic(): m], outermost block. *)
Definition atomic {A} (m : Tx A) : Prog A :=
  λ w, match m (mkTxState w []) with
       | (Returned a, st) =>
           if forallb (fk_holds (world st)) (deferred_fk st)
           then (Returned a, world st)
           else (Raised IntegrityError, rollback w (world st))
       | (Raised e, st) => (Raised e, rollback w (world st))
       end.

(** [with transaction.atomic(): m] inside an open transaction: a savepoint,
    rolled back to when [m] raises; the exception goes on. *)
Definition savepoint {A} (m : Tx A) : Tx A :=
  λ st, match m st with
        | (Returned a, st') => (Returned a, st')
        | (Raised e, st') =>
            (Raised e, mkTxState (rollback (world st) (world st')) (deferred_fk st))
        end.

(** ** The ORM statements the services use *)

Definition get_world : Tx World := λ st, (Returned (world st), st).

Definition set_ledger (l : list CreditTransaction) : Tx unit :=
  λ st, let w := world st in
        (Returned tt, mkTxState (mkWorld (wallets w) l (next_id w) (clock w)) (deferred_fk st)).

(** [CreditTransaction.objects.get(...)] on the rows that satisfy [p]. *)
Definition objects_get (p : CreditTransaction → bool) : Tx CreditTransaction :=
  let! w := get_world in
  match List.filter p (ledger w) with
  | [] => raise DoesNotExist
  | [r] => ret r
  | _ => raise MultipleObjectsReturned
  end.

Definition pk_is (pk : Z) (r : CreditTransaction) : bool := tx_id r =? pk.

(** [CreditTransaction.objects.create(...)]: the id comes from the
    sequence, [created_at] from the clock. *)
Definition objects_create (wid d : Z) (ty : TxType) (st : TxStatus)
    (key rid : option string) (nt : string) : Tx CreditTransaction :=
  λ s, let w := world s in
       let row := mkCreditTransaction (next_id w) wid d ty st key rid nt (clock w) in
       (Returned row,
        mkTxState (mkWorld (wallets w) (ledger w ++ [row]) (next_id w + 1) (clock w))
                  (deferred_fk s ++ [wid])).

Inductive Field := F_tx_status | F_note.

Definition assign (src : CreditTransaction) (f : Field) (dst : CreditTransaction)
    : CreditTransaction :=
  match f with
  | F_tx_status => with_tx_status (tx_status src) dst
  | F_note => with_note (note src) dst
  end.

(** [obj.save(update_fields=fields)]:
    UPDATE ... SET fields WHERE id = obj.pk *)
Definition save (obj : CreditTransaction) (update_fields : list Field) : Tx unit :=
  let! w := get_world in
  set_ledger (map (λ r, if pk_is (tx_id obj) r
                        then foldr (assign obj) r update_fields else r)
                  (ledger w)).

(** [Wallet.objects.filter(id=wid, <cond>).update(balance=f(F("balance")))],
    the number of rows updated. [QuerySet.update] leaves [auto_now] fields
    alone. *)
Definition wallets_update (wid : Z) (cond : Wallet → bool) (f : Z → Z) : Tx nat :=
  λ st, let w := world st in
        match wallets w !! wid with
        | Some wl =>
            if cond wl
            then (Returned 1%nat,
                  mkTxState (mkWorld (<[wid := with_balance (f (balance wl)) wl]> (wallets w))
                                     (ledger w) (next_id w) (clock w))
                            (deferred_fk st))
            else (Returned 0%nat, st)
        | None => (Returned 0%nat, st)
        end.

(** [get_or_create(wallet_id=wid, idempotency_key=key, defaults=...)] *)
Definition key_is (wid : Z) (key : string) (r : CreditTransaction) : bool :=
  (wallet_id r =? wid) && bool_decide (idempotency_key r = Some key).

Definition objects_get_or_create (wid : Z) (key : string) (d : Z) (ty : TxType)
    (st : TxStatus) (rid : option string) (nt : string)
    : Tx (CreditTransaction * bool) :=
  try_except (let! r := objects_get (key_is wid key) in ret (r, false))
    (λ e, match e with
          | DoesNotExist =>
              Some (let! r := savepoint (objects_create wid d ty st (Some key) rid nt) in
                    ret (r, true))
          | _ => None
          end).

(** ** services/reserve_credits.py *)

Definition _validate_amount {S} (amount : Z) : SE S unit :=
  if amount <=? 0 then raise (ValueError "Amount must be > 0") else ret tt.

Definition _get_or_create_tx (wid amount : Z) (key : string)
    (rid : option string) (nt : string) : Tx (CreditTransaction * bool) :=
  objects_get_or_create wid key (- amount) DEBIT PENDING rid nt.

Definition _create_tx (wid amount : Z) (rid : option string) (nt : string)
    : Tx CreditTransaction :=
  objects_create wid (- amount) DEBIT PENDING None rid nt.

Definition _conditional_decrement (wid amount : Z) : Tx nat :=
  wallets_update wid (λ wl, amount <=? balance wl) (λ b, b - amount).

Definition _after_success (tx : CreditTransaction) : Tx unit := ret tt.

(** [if idempotency_key:] the key when it is truthy, that is neither
    [None] nor the empty string. *)
Definition truthy (k : option string) : option string :=
  match k with
  | Some s => if String.eqb s EmptyString then None else Some s
  | None => None
  end.

(** The statements of [__call__] after the insert: the conditional
    decrement, the failure when no row was updated, the hook. *)
Definition debit_and_return (wid amount : Z) (tx : CreditTransaction)
    : Tx CreditTransaction :=
  let! updated := _conditional_decrement wid amount in
  if Nat.eqb updated 0 then raise (InsufficientCredits "Insufficient credits")
  else exec! _after_success tx in ret tx.

(** [ReserveCreditsService.__call__]; the wallet is used through its id. *)
Definition ReserveCreditsService (wallet : Z) (amount : Z)
    (idempotency_key request_id : option string) (nt : string)
    : Prog CreditTransaction :=
  exec! _validate_amount amount in
  atomic
    (match truthy idempotency_key with
     | Some key =>
         let! p := _get_or_create_tx wallet amount key request_id nt in
         if negb (snd p) then ret (fst p)
         else debit_and_return wallet amount (fst p)
     | None =>
         let! tx := _create_tx wallet amount request_id nt in
         debit_and_return wallet amount tx
     end).

(** [reserve_credits], the function that follows the class in
    reserve_credits.py: the same statements, written inline. *)
Definition reserve_credits (wallet : Z) (amount : Z)
    (idempotency_key request_id : option string) (nt : string)
    : Prog CreditTransaction :=
  exec! (if amount <=? 0 then raise (ValueError "Amount must be > 0") else ret tt) in
  atomic
    (let! tx :=
       match truthy idempotency_key with
       | Some key =>
           let! p := objects_get_or_create wallet key (- amount) DEBIT PENDING
                       request_id nt in
           if negb (snd p) then ret (inl (fst p)) else ret (inr (fst p))
       | None =>
           let! tx := objects_create wallet (- amount) DEBIT PENDING None request_id nt in
           ret (inr tx)
       end in
     match tx with
     | inl existing => ret existing
     | inr tx =>
         let! updated := wallets_update wallet (λ wl, amount <=? balance wl)
                           (λ b, b - amount) in
         if Nat.eqb updated 0 then raise (InsufficientCredits "Insufficient credits")
         else ret tx
     end).

(** ** services/commit_reservation.py *)

Definition commit_reservation_body (tx : CreditTransaction) : Tx CreditTransaction :=
  let! pending := objects_get (pk_is (tx_id tx)) in
  if negb (bool_decide (tx_status pending = PENDING)) then ret pending
  else
    let pending := with_tx_status COMMITTED pending in
    exec! save pending [F_tx_status] in
    ret pending.

Definition commit_reservation (tx : CreditTransaction) : Prog CreditTransaction :=
  atomic (commit_reservation_body tx).

(** ** services/reverse_reservation.py *)

Definition refund_note (curr : CreditTransaction) (reason : string) : string :=
  "refund of tx " +:+ pretty (tx_id curr) +:+ ": " +:+ reason.

Definition reverse_reservation_body (tx : CreditTransaction) (reason : string)
    : Tx CreditTransaction :=
  let! curr := objects_get (pk_is (tx_id tx)) in
  if negb (bool_decide (tx_status curr = PENDING)) then ret curr
  else
    let curr := with_note reason (with_tx_status REVERSED curr) in
    exec! save curr [F_tx_status; F_note] in
    exec! wallets_update (wallet_id curr) (λ _, true) (λ b, b + (- delta curr)) in
    exec! objects_create (wallet_id curr) (- delta curr) REFUND COMMITTED None None
            (refund_note curr reason) in
    ret curr.

Definition reverse_reservation (tx : CreditTransaction) (reason : string)
    : Prog CreditTransaction :=
  atomic (reverse_reservation_body tx reason).

(** ** services/top_up.py *)

Definition top_up (wallet : Z) (amount : Z) (nt : string) : Prog CreditTransaction :=
  exec! (if amount <=? 0 then raise (ValueError "Top up amount must be > 0") else ret tt) in
  atomic
    (exec! wallets_update wallet (λ _, true) (λ b, b + amount) in
     objects_create wallet amount CREDIT COMMITTED None None nt).

(** ** services/sweep_stale_reservations.py *)

Record Settings := mkSettings {
  CREDIT_RESERVATION_TTL : option Z   (* seconds; None when the setting is absent *)
}.

Definition timedelta_seconds (s : Z) : Z := s * 1000000.

Definition id_le (a b : CreditTransaction) : Prop := tx_id a ≤ tx_id b.

#[global] Instance id_le_dec : RelDecision id_le.
Proof. intros a b. unfold id_le. apply _. Defined.

(** [filter(tx_status=PENDING, created_at__lt=cutoff)] *)
Definition stale (cutoff : Z) (r : CreditTransaction) : bool :=
  bool_decide (tx_status r = PENDING) && (created_at r <? cutoff).

(** [qs[:chunk_size]]: no limit for [None]; a negative bound is refused. *)
Definition slice_to {A} (chunk_size : option Z) (l : list A) : Tx (list A) :=
  match chunk_size with
  | None => ret l
  | Some c => if c <? 0 then raise NegativeIndexing else ret (take (Z.to_nat c) l)
  end.

Definition select_stale (cutoff : Z) (chunk_size : option Z)
    : Tx (list CreditTransaction) :=
  let! w := get_world in
  slice_to chunk_size (merge_sort id_le (List.filter (stale cutoff) (ledger w))).

(** One turn of the [while True] loop: [None] stands for [break]. *)
Definition sweep_batch (cutoff : Z) (chunk_size : option Z) : Prog (option nat) :=
  atomic
    (let! batch := select_stale cutoff chunk_size in
     match batch with
     | [] => ret None
     | _ =>
         exec! for_each batch
                 (λ tx, exec! savepoint (reverse_reservation_body tx "expired") in ret tt) in
         ret (Some (length batch))
     end).

(** The loop, with [fuel] turns at most; [None] when the fuel runs out. *)
Fixpoint sweep_loop (fuel : nat) (cutoff : Z) (chunk_size : option Z) (total : nat)
    (w : World) : option (Outcome nat) * World :=
  match fuel with
  | O => (None, w)
  | S fuel' =>
      match sweep_batch cutoff chunk_size w with
      | (Raised e, w') => (Some (Raised e), w')
      | (Returned None, w') => (Some (Returned total), w')
      | (Returned (Some n), w') =>
          sweep_loop fuel' cutoff chunk_size (total + n)%nat w'
      end
  end.

Definition sweep_stale_reservations (fuel : nat) (settings : Settings)
    (now : option Z) (chunk_size : option Z) (w : World)
    : option (Outcome nat) * World :=
  let ttl := default 300 (CREDIT_RESERVATION_TTL settings) in
  let now := default (clock w) now in
  let cutoff := now - timedelta_seconds ttl in
  sweep_loop fuel cutoff chunk_size 0%nat w.

(** ** decorators.py *)

Record HttpRequest := mkHttpRequest {
  wallet : option Z;               (* set by the API key middleware *)
  headers : gmap string string
}.

Record HttpResponse := mkHttpResponse {
  status_code : option Z;          (* None: the object has no such attribute *)
  content : list (string * string)
}.

Definition JsonResponse (detail : string) (status : Z) : HttpResponse :=
  mkHttpResponse (Some status) [("detail", detail)].

(** The service calls a wrapped view makes, in order. *)
Inductive Call :=
  | CallReserve (wallet amount : Z) (key rid : option string) (nt : string)
  | CallView
  | CallCommit (tx : CreditTransaction)
  | CallReverse (tx : CreditTransaction) (reason : string).

Record Session := mkSession {
  sworld : World;
  calls : list Call
}.

Definition invoke {A} (c : Call) (p : Prog A) : SE Session A :=
  λ s, match p (sworld s) with
       | (o, w') => (o, mkSession w' (calls s ++ [c]))
       end.

(** [getattr(response, "status_code", 500)] *)
Definition status_of (response : HttpResponse) : Z := default 500 (status_code response).

Definition success_of (response : HttpResponse) : bool :=
  (200 <=? status_of response) && (status_of response <? 400).

(** [_wrapped] of [charge_one_credit(get_wallet)(view_func)]; [uuid4] is the
    value of [str(uuid.uuid4())]. *)
Definition _wrapped (get_wallet : HttpRequest → option Z)
    (view_func : HttpRequest → Prog HttpResponse) (uuid4 : string)
    (request : HttpRequest) : SE Session HttpResponse :=
  match get_wallet request with
  | None => ret (JsonResponse "API key required" 401)
  | Some wallet =>
      let idem := headers request !! "Idempotency-Key" in
      let! r :=
        try_except
          (let! tx := invoke (CallReserve wallet 1 idem (Some uuid4) "api-request")
                        (ReserveCreditsService wallet 1 idem (Some uuid4) "api-request") in
           ret (inr tx))
          (λ e, match e with
                | InsufficientCredits _ =>
                    Some (ret (inl (JsonResponse "Insufficient credits" 402)))
                | _ => None
                end) in
      match r with
      | inl early => ret early
      | inr tx =>
          let! p :=
            try_except
              (let! response := invoke CallView (view_func request) in
               ret (response, success_of response))
              (λ e, if is_Exception e
                    then Some (exec! invoke (CallReverse tx "exception")
                                       (reverse_reservation tx "exception") in
                               raise e)
                    else None) in
          exec! (if snd p
                 then exec! invoke (CallCommit tx) (commit_reservation tx) in ret tt
                 else
                   let reason := "http " +:+ pretty (status_of (fst p)) in
                   exec! invoke (CallReverse tx reason) (reverse_reservation tx reason) in
                   ret tt) in
          ret (fst p)
      end
  end.

(** [getattr(req, "wallet", None)], the default of [get_wallet]. *)
Definition default_get_wallet (req : HttpRequest) : option Z := wallet req.

(** ** Traces of operations *)

Inductive Op :=
  | OpReserve (wallet amount : Z) (key rid : option string) (nt : string)
  | OpCommit (tx : CreditTransaction)
  | OpReverse (tx : CreditTransaction) (reason : string)
  | OpTopUp (wallet amount : Z) (nt : string)
  | OpSweep (fuel : nat) (settings : Settings) (now : option Z) (chunk_size : option Z)
  | OpTick (dt : Z).   (* time passes *)

Definition tick (dt : Z) (w : World) : World :=
  mkWorld (wallets w) (ledger w) (next_id w) (clock w + dt).

(** The committed state an operation leaves, whatever it returns or raises. *)
Definition exec_op (o : Op) (w : World) : World :=
  match o with
  | OpReserve wl a k rid nt => snd (ReserveCreditsService wl a k rid nt w)
  | OpCommit tx => snd (commit_reservation tx w)
  | OpReverse tx reason => snd (reverse_reservation tx reason w)
  | OpTopUp wl a nt => snd (top_up wl a nt w)
  | OpSweep fuel st now c => snd (sweep_stale_reservations fuel st now c w)
  | OpTick dt => tick dt w
  end.

Definition run (ops : list Op) (w : World) : World :=
  fold_left (λ w o, exec_op o w) ops w.

(** ** Ledger sums *)

Definition sumZ (l : list Z) : Z := foldr Z.add 0 l.

Definition rows_of (wid : Z) (p : CreditTransaction → bool) (w : World)
    : list CreditTransaction :=
  List.filter (λ r, (wallet_id r =? wid) && p r) (ledger w).

Definition sum_abs (wid : Z) (p : CreditTransaction → bool) (w : World) : Z :=
  sumZ (map (λ r, Z.abs (delta r)) (rows_of wid p w)).

Definition is_row (ty : TxType) (st : TxStatus) (r : CreditTransaction) : bool :=
  bool_decide (tx_type r = ty) && bool_decide (tx_status r = st).

Definition has_type (ty : TxType) (r : CreditTransaction) : bool :=
  bool_decide (tx_type r = ty).

Definition balance_of (w : World) (wid : Z) : Z :=
  default 0 (balance <$> wallets w !! wid).

(** * Reasoning about the embedding *)

(** ** Lists of rows *)

Lemma filter_map_commute {A} (p : A → bool) (f : A → A) (l : list A) :
  (∀ x, p (f x) = p x) → List.filter p (map f l) = map f (List.filter p l).
Proof.
  intros Hp. induction l as [|x l IH]; simpl; [done|].
  rewrite Hp. destruct (p x); simpl; by rewrite IH.
Qed.

Lemma filter_none {A} (p : A → bool) (l : list A) :
  Forall (λ x, p x = false) l → List.filter p l = [].
Proof.
  induction 1 as [|x l Hx _ IH]; simpl; [done|]. by rewrite Hx.
Qed.

Lemma filter_nil_inv {A} (p : A → bool) (l : list A) :
  List.filter p l = [] → Forall (λ x, p x = false) l.
Proof.
  induction l as [|x l IH]; simpl; [constructor|].
  destruct (p x) eqn:E; [discriminate|]. intros H. constructor; auto.
Qed.

Lemma filter_singleton_elem {A} (p : A → bool) (l : list A) (r : A) :
  List.filter p l = [r] → In r l ∧ p r = true.
Proof.
  intros H. apply filter_In. rewrite H. by left.
Qed.

Lemma sumZ_app (l1 l2 : list Z) : sumZ (l1 ++ l2) = sumZ l1 + sumZ l2.
Proof. induction l1 as [|x l1 IH]; simpl; lia. Qed.

(** Marking the rows of primary key [pk]. *)
Definition mark_rows (pk : Z) (f : CreditTransaction → CreditTransaction)
    (l : list CreditTransaction) : list CreditTransaction :=
  map (λ r, if pk_is pk r then f r else r) l.

Lemma mark_rows_length pk f l : length (mark_rows pk f l) = length l.
Proof. apply length_map. Qed.

Lemma tx_id_with_tx_status st r : tx_id (with_tx_status st r) = tx_id r.
Proof. done. Qed.

Lemma tx_id_with_note n r : tx_id (with_note n r) = tx_id r.
Proof. done. Qed.

(** ** Running the monad *)

Lemma rollback_same (w : World) : rollback w w = w.
Proof. by destruct w. Qed.

Lemma objects_get_run p st :
  objects_get p st =
    match List.filter p (ledger (world st)) with
    | [] => (Raised DoesNotExist, st)
    | [r] => (Returned r, st)
    | _ => (Raised MultipleObjectsReturned, st)
    end.
Proof.
  unfold objects_get, bind, get_world.
  by destruct (List.filter p (ledger (world st))) as [|r [|r' l]].
Qed.

(** The world a successful reversal of row [r] leaves, the foreign key of
    the refund row apart. *)
Definition reversed_world (r : CreditTransaction) (reason : string) (w : World) : World :=
  mkWorld
    (match wallets w !! wallet_id r with
     | Some wl => <[wallet_id r := with_balance (balance wl + - delta r) wl]> (wallets w)
     | None => wallets w
     end)
    (mark_rows (tx_id r) (λ x, with_note reason (with_tx_status REVERSED x)) (ledger w)
       ++ [mkCreditTransaction (next_id w) (wallet_id r) (- delta r) REFUND COMMITTED
             None None (refund_note r reason) (clock w)])
    (next_id w + 1) (clock w).

Lemma reverse_reservation_body_run tx reason st :
  reverse_reservation_body tx reason st =
    match List.filter (pk_is (tx_id tx)) (ledger (world st)) with
    | [] => (Raised DoesNotExist, st)
    | [r] =>
        if bool_decide (tx_status r = PENDING)
        then (Returned (with_note reason (with_tx_status REVERSED r)),
              mkTxState (reversed_world r reason (world st))
                        (deferred_fk st ++ [wallet_id r]))
        else (Returned r, st)
    | _ => (Raised MultipleObjectsReturned, st)
    end.
Proof.
  unfold reverse_reservation_body. unfold bind at 1. rewrite objects_get_run.
  destruct (List.filter _ _) as [|r [|r' l]] eqn:E; try done.
  destruct (bool_decide (tx_status r = PENDING)) eqn:Hs; simpl; [|done].
  clear E.
  unfold bind, save, get_world, set_ledger, wallets_update, objects_create,
    reversed_world, mark_rows, ret; simpl.
  destruct st as [[ws l nid clk] fk]; simpl in *.
  by destruct (ws !! wallet_id r) as [wl|].
Qed.

Definition committed_world (r : CreditTransaction) (w : World) : World :=
  mkWorld (wallets w) (mark_rows (tx_id r) (with_tx_status COMMITTED) (ledger w))
    (next_id w) (clock w).

Lemma commit_reservation_run tx w :
  commit_reservation tx w =
    match List.filter (pk_is (tx_id tx)) (ledger w) with
    | [] => (Raised DoesNotExist, w)
    | [r] =>
        if bool_decide (tx_status r = PENDING)
        then (Returned (with_tx_status COMMITTED r), committed_world r w)
        else (Returned r, w)
    | _ => (Raised MultipleObjectsReturned, w)
    end.
Proof.
  unfold commit_reservation, atomic, commit_reservation_body.
  unfold bind at 1. rewrite objects_get_run. simpl.
  destruct (List.filter _ _) as [|r [|r' l]] eqn:E; simpl;
    rewrite ?rollback_same; try done.
  destruct (bool_decide (tx_status r = PENDING)) eqn:Hs; simpl;
    [|by destruct w].
  done.
Qed.

Lemma reverse_reservation_run tx reason w :
  reverse_reservation tx reason w =
    match List.filter (pk_is (tx_id tx)) (ledger w) with
    | [] => (Raised DoesNotExist, w)
    | [r] =>
        if bool_decide (tx_status r = PENDING)
        then
          match wallets w !! wallet_id r with
          | Some _ => (Returned (with_note reason (with_tx_status REVERSED r)),
                       reversed_world r reason w)
          | None => (Raised IntegrityError,
                     mkWorld (wallets w) (ledger w) (next_id w + 1) (clock w))
          end
        else (Returned r, w)
    | _ => (Raised MultipleObjectsReturned, w)
    end.
Proof.
  unfold reverse_reservation, atomic. rewrite reverse_reservation_body_run. simpl.
  destruct (List.filter _ _) as [|r [|r' l]] eqn:E; simpl;
    rewrite ?rollback_same; try done.
  destruct (bool_decide (tx_status r = PENDING)) eqn:Hs; simpl;
    [|by destruct w].
  unfold fk_holds. simpl.
  destruct (wallets w !! wallet_id r) as [wl|] eqn:Hw; simpl.
  - rewrite lookup_insert_eq. rewrite bool_decide_eq_true_2; [done|eauto].
  - rewrite Hw. rewrite bool_decide_eq_false_2; [done|]. by intros [? ?].
Qed.

(** The PENDING DEBIT row a reservation inserts. *)
Definition new_debit (wid amount : Z) (key rid : option string) (nt : string)
    (w : World) : CreditTransaction :=
  mkCreditTransaction (next_id w) wid (- amount) DEBIT PENDING key rid nt (clock w).

(** The world with the id sequence advanced by one and nothing else. *)
Definition seq_advanced (w : World) : World :=
  mkWorld (wallets w) (ledger w) (next_id w + 1) (clock w).

Definition reserved_world (wid amount : Z) (key rid : option string) (nt : string)
    (wl : Wallet) (w : World) : World :=
  mkWorld (<[wid := with_balance (balance wl - amount) wl]> (wallets w))
    (ledger w ++ [new_debit wid amount key rid nt w]) (next_id w + 1) (clock w).

(** What a reservation does once the insert has gone through. *)
Definition reserve_fresh (wid amount : Z) (key rid : option string) (nt : string)
    (w : World) : Outcome CreditTransaction * World :=
  match wallets w !! wid with
  | Some wl =>
      if amount <=? balance wl
      then (Returned (new_debit wid amount key rid nt w),
            reserved_world wid amount key rid nt wl w)
      else (Raised (InsufficientCredits "Insufficient credits"), seq_advanced w)
  | None => (Raised (InsufficientCredits "Insufficient credits"), seq_advanced w)
  end.

Lemma debit_after_create_run wid amount key rid nt w :
  atomic (let! tx := objects_create wid (- amount) DEBIT PENDING key rid nt in
          debit_and_return wid amount tx) w
  = reserve_fresh wid amount key rid nt w.
Proof.
  unfold atomic, bind, objects_create, debit_and_return, _conditional_decrement,
    wallets_update, reserve_fresh, bind, _after_success, ret, raise. simpl.
  destruct (wallets w !! wid) as [wl|] eqn:Hw; simpl; [|done].
  destruct (amount <=? balance wl) eqn:Hb; simpl; [|done].
  unfold fk_holds; simpl. rewrite lookup_insert_eq.
  rewrite bool_decide_eq_true_2; [done|eauto].
Qed.

Lemma reserve_credits_run wid amount key rid nt w :
  ReserveCreditsService wid amount key rid nt w =
    if amount <=? 0 then (Raised (ValueError "Amount must be > 0"), w)
    else
      match truthy key with
      | Some k =>
          match List.filter (key_is wid k) (ledger w) with
          | [] => reserve_fresh wid amount (Some k) rid nt w
          | [r] => (Returned r, w)
          | _ => (Raised MultipleObjectsReturned, w)
          end
      | None => reserve_fresh wid amount None rid nt w
      end.
Proof.
  unfold ReserveCreditsService, _validate_amount. unfold bind at 1.
  destruct (amount <=? 0) eqn:Ha; [done|]. simpl.
  destruct (truthy key) as [k|]; [|apply debit_after_create_run].
  rewrite <- debit_after_create_run.
  unfold atomic, _get_or_create_tx, objects_get_or_create, try_except, savepoint.
  unfold bind. cbv beta. rewrite objects_get_run. cbn [world ledger].
  destruct (List.filter _ _) as [|r [|r' l]] eqn:E; simpl;
    rewrite ?rollback_same; done.
Qed.

(** X22. The function and the service are one program. *)
Lemma reserve_credits_same wid amount key rid nt w :
  reserve_credits wid amount key rid nt w
  = ReserveCreditsService wid amount key rid nt w.
Proof.
  rewrite reserve_credits_run. unfold reserve_credits. unfold bind at 1.
  destruct (amount <=? 0) eqn:Ha; [done|]. simpl.
  destruct (truthy key) as [k|].
  - rewrite <- debit_after_create_run.
    unfold atomic, objects_get_or_create, try_except, savepoint, debit_and_return,
      _conditional_decrement, _after_success.
    unfold bind. cbv beta. rewrite objects_get_run. cbn [world ledger].
    destruct (List.filter _ _) as [|r [|r' l]] eqn:E; simpl;
      rewrite ?rollback_same; done.
  - rewrite <- debit_after_create_run.
    unfold atomic, debit_and_return, _conditional_decrement, _after_success,
      bind, objects_create, wallets_update, ret, raise. simpl.
    destruct (wallets w !! wid) as [wl|]; simpl; [|done].
    by destruct (amount <=? balance wl).
Qed.

Definition topped_up_world (wid amount : Z) (nt : string) (wl : Wallet) (w : World)
    : World :=
  mkWorld (<[wid := with_balance (balance wl + amount) wl]> (wallets w))
    (ledger w ++ [mkCreditTransaction (next_id w) wid amount CREDIT COMMITTED
                    None None nt (clock w)])
    (next_id w + 1) (clock w).

Lemma top_up_run wid amount nt w :
  top_up wid amount nt w =
    if amount <=? 0 then (Raised (ValueError "Top up amount must be > 0"), w)
    else
      match wallets w !! wid with
      | Some wl =>
          (Returned (mkCreditTransaction (next_id w) wid amount CREDIT COMMITTED
                       None None nt (clock w)),
           topped_up_world wid amount nt wl w)
      | None => (Raised IntegrityError, seq_advanced w)
      end.
Proof.
  unfold top_up. unfold bind at 1.
  destruct (amount <=? 0) eqn:Ha; [done|]. simpl.
  unfold atomic, bind, wallets_update, objects_create, fk_holds. simpl.
  destruct (wallets w !! wid) as [wl|] eqn:Hw; simpl.
  - rewrite lookup_insert_eq. rewrite bool_decide_eq_true_2; [done|eauto].
  - rewrite Hw. rewrite bool_decide_eq_false_2; [done|]. by intros [? ?].
Qed.

(** ** Committed transitions

    Every committed change of the store is one of these steps; the services
    are shown below to move along them. *)

Definition fresh_key (wid : Z) (key : option string) (w : World) : Prop :=
  match key with
  | Some k => k ≠ EmptyString ∧ List.filter (key_is wid k) (ledger w) = []
  | None => True
  end.

Inductive step : World → World → Prop :=
  | step_env w nid clk :
      next_id w ≤ nid →
      step w (mkWorld (wallets w) (ledger w) nid clk)
  | step_reserve w wid wl amount key rid nt :
      wallets w !! wid = Some wl → 0 < amount → amount ≤ balance wl →
      fresh_key wid key w →
      step w (reserved_world wid amount key rid nt wl w)
  | step_commit w r :
      List.filter (pk_is (tx_id r)) (ledger w) = [r] → tx_status r = PENDING →
      step w (committed_world r w)
  | step_reverse w r reason wl :
      List.filter (pk_is (tx_id r)) (ledger w) = [r] → tx_status r = PENDING →
      wallets w !! wallet_id r = Some wl →
      step w (reversed_world r reason w)
  | step_top_up w wid wl amount nt :
      wallets w !! wid = Some wl → 0 < amount →
      step w (topped_up_world wid amount nt wl w).

Definition reaches : World → World → Prop := rtc step.

Lemma step_same w : step w w.
Proof.
  destruct w as [ws l nid clk].
  apply (step_env (mkWorld ws l nid clk) nid clk). simpl. lia.
Qed.

Lemma step_seq_advanced w : step w (seq_advanced w).
Proof. apply step_env. lia. Qed.

Lemma truthy_fresh key k wid w :
  truthy key = Some k → List.filter (key_is wid k) (ledger w) = [] →
  fresh_key wid (Some k) w.
Proof.
  intros Ht Hf. split; [|done].
  destruct key as [s|]; simpl in Ht; [|done].
  destruct (String.eqb s EmptyString) eqn:E; [done|].
  injection Ht as <-. by apply String.eqb_neq.
Qed.

Lemma reserve_fresh_step wid amount key rid nt w :
  0 < amount → fresh_key wid key w →
  step w (snd (reserve_fresh wid amount key rid nt w)).
Proof.
  intros Ha Hk. unfold reserve_fresh.
  destruct (wallets w !! wid) as [wl|] eqn:Hw; simpl; [|apply step_seq_advanced].
  destruct (amount <=? balance wl) eqn:Hb; simpl; [|apply step_seq_advanced].
  apply step_reserve; auto. lia.
Qed.

Lemma reserve_credits_step wid amount key rid nt w :
  step w (snd (ReserveCreditsService wid amount key rid nt w)).
Proof.
  rewrite reserve_credits_run.
  destruct (amount <=? 0) eqn:Ha; [apply step_same|].
  destruct (truthy key) as [k|] eqn:Hk.
  - destruct (List.filter _ _) as [|r [|r' l]] eqn:E; simpl; try apply step_same.
    apply reserve_fresh_step; [lia|]. eapply truthy_fresh; eauto.
  - apply reserve_fresh_step; [lia|done].
Qed.

Lemma commit_reservation_step tx w : step w (snd (commit_reservation tx w)).
Proof.
  rewrite commit_reservation_run.
  destruct (List.filter _ _) as [|r [|r' l]] eqn:E; simpl; try apply step_same.
  destruct (bool_decide (tx_status r = PENDING)) eqn:Hs; simpl; [|apply step_same].
  apply bool_decide_eq_true in Hs.
  pose proof (filter_singleton_elem _ _ _ E) as [_ Hpk].
  apply Z.eqb_eq in Hpk. rewrite <- Hpk in E. by apply step_commit.
Qed.

Lemma reverse_reservation_step tx reason w :
  step w (snd (reverse_reservation tx reason w)).
Proof.
  rewrite reverse_reservation_run.
  destruct (List.filter _ _) as [|r [|r' l]] eqn:E; simpl; try apply step_same.
  destruct (bool_decide (tx_status r = PENDING)) eqn:Hs; simpl; [|apply step_same].
  apply bool_decide_eq_true in Hs.
  pose proof (filter_singleton_elem _ _ _ E) as [_ Hpk].
  apply Z.eqb_eq in Hpk. rewrite <- Hpk in E.
  destruct (wallets w !! wallet_id r) as [wl|] eqn:Hw; simpl.
  - by eapply step_reverse.
  - apply step_seq_advanced.
Qed.

Lemma top_up_step wid amount nt w : step w (snd (top_up wid amount nt w)).
Proof.
  rewrite top_up_run.
  destruct (amount <=? 0) eqn:Ha; [apply step_same|].
  destruct (wallets w !! wid) as [wl|] eqn:Hw; simpl.
  - apply step_top_up; [done|lia].
  - apply step_seq_advanced.
Qed.

(** ** Statements inside a transaction

    [tx_sound m]: [m] keeps the wallet ids, never lowers the sequence, only
    adds foreign keys to check, and when those hold in the end, the world
    it reaches is reached by committed steps. *)

Definition same_wallet_ids (w w' : World) : Prop :=
  ∀ k, is_Some (wallets w' !! k) ↔ is_Some (wallets w !! k).

Definition tx_sound {A} (m : Tx A) : Prop :=
  ∀ st o st', m st = (o, st') →
    same_wallet_ids (world st) (world st') ∧
    next_id (world st) ≤ next_id (world st') ∧
    ∃ fks, deferred_fk st' = deferred_fk st ++ fks ∧
      (Forall (λ k, is_Some (wallets (world st') !! k)) fks →
       reaches (world st) (world st')).

Lemma tx_sound_pure {A} (m : Tx A) :
  (∀ st, snd (m st) = st) → tx_sound m.
Proof.
  intros Hm st o st' E. pose proof (Hm st) as H. rewrite E in H. simpl in H. subst.
  split; [done|]. split; [lia|]. exists []. split; [by rewrite app_nil_r|].
  intros _. apply rtc_refl.
Qed.

Lemma tx_sound_bind {A B} (m : Tx A) (k : A → Tx B) :
  tx_sound m → (∀ a, tx_sound (k a)) → tx_sound (bind m k).
Proof.
  intros Hm Hk st o st' E. unfold bind in E.
  destruct (m st) as [[a|e] st1] eqn:E1.
  - destruct (Hm _ _ _ E1) as (D1 & N1 & fks1 & F1 & R1).
    destruct (Hk a _ _ _ E) as (D2 & N2 & fks2 & F2 & R2).
    split; [intros i; etrans; [apply D2|apply D1]|]. split; [lia|].
    exists (fks1 ++ fks2). split; [by rewrite F2, F1, app_assoc|].
    intros HF. apply Forall_app in HF as [H1 H2].
    unfold reaches in *. etrans; [apply R1|by apply R2].
    eapply Forall_impl; [exact H1|]. intros i Hi. by apply D2.
  - injection E as <- <-. by apply (Hm _ _ _ E1).
Qed.

Lemma tx_sound_savepoint {A} (m : Tx A) : tx_sound m → tx_sound (savepoint m).
Proof.
  intros Hm st o st' E. unfold savepoint in E.
  destruct (m st) as [[a|e] st1] eqn:E1.
  - injection E as <- <-. by apply (Hm _ _ _ E1).
  - injection E as <- <-. simpl.
    destruct (Hm _ _ _ E1) as (_ & N1 & _).
    split; [done|]. split; [done|]. exists []. split; [by rewrite app_nil_r|].
    intros _. apply rtc_once. by apply step_env.
Qed.

Lemma tx_sound_for_each {A} (l : list A) (body : A → Tx unit) :
  (∀ x, tx_sound (body x)) → tx_sound (for_each l body).
Proof.
  intros Hb. induction l as [|x l IH]; simpl.
  - by apply tx_sound_pure.
  - apply tx_sound_bind; auto.
Qed.

Lemma reversed_world_same_ids r reason w : same_wallet_ids w (reversed_world r reason w).
Proof.
  intros k. unfold reversed_world; simpl.
  destruct (wallets w !! wallet_id r) as [wl|] eqn:Hw; [|done].
  destruct (decide (wallet_id r = k)) as [<-|Hne].
  - rewrite lookup_insert_eq, Hw. split; eauto.
  - by rewrite lookup_insert_ne.
Qed.

Lemma tx_sound_reverse tx reason : tx_sound (reverse_reservation_body tx reason).
Proof.
  intros st o st' E. rewrite reverse_reservation_body_run in E.
  assert (Hid :
    same_wallet_ids (world st) (world st) ∧ next_id (world st) ≤ next_id (world st) ∧
    ∃ fks, deferred_fk st = deferred_fk st ++ fks ∧
      (Forall (λ k, is_Some (wallets (world st) !! k)) fks →
       reaches (world st) (world st))).
  { split; [done|]. split; [lia|]. exists [].
    split; [by rewrite app_nil_r|]. intros _. apply rtc_refl. }
  destruct (List.filter _ _) as [|r [|r' l]] eqn:Ef;
    try (injection E as <- <-; exact Hid).
  destruct (bool_decide (tx_status r = PENDING)) eqn:Hs;
    [|injection E as <- <-; exact Hid].
  injection E as <- <-. simpl.
  split; [apply reversed_world_same_ids|]. split; [lia|].
  exists [wallet_id r]. split; [done|]. intros HF.
  apply Forall_inv in HF.
  destruct (proj1 (reversed_world_same_ids r reason (world st) (wallet_id r)) HF)
    as [wl Hwl].
  apply bool_decide_eq_true in Hs.
  pose proof (filter_singleton_elem _ _ _ Ef) as [_ Hpk].
  apply Z.eqb_eq in Hpk. rewrite <- Hpk in Ef.
  apply rtc_once. by eapply step_reverse.
Qed.

Lemma atomic_reaches {A} (m : Tx A) w : tx_sound m → reaches w (snd (atomic m w)).
Proof.
  intros Hm. unfold atomic.
  destruct (m (mkTxState w [])) as [[a|e] st] eqn:E;
    destruct (Hm _ _ _ E) as (D & N & fks & F & R); simpl in *.
  - destruct (forallb _ _) eqn:Hfk; simpl.
    + apply R. subst fks. apply Forall_forall. intros k Hk.
      rewrite forallb_forall in Hfk. apply list_elem_of_In in Hk.
      specialize (Hfk k Hk). by apply bool_decide_eq_true in Hfk.
    + apply rtc_once. by apply step_env.
  - apply rtc_once. by apply step_env.
Qed.

Lemma tx_sound_select_stale cutoff chunk_size : tx_sound (select_stale cutoff chunk_size).
Proof.
  apply tx_sound_pure. intros st. unfold select_stale, bind, get_world, slice_to.
  destruct chunk_size as [c|]; [|done]. by destruct (c <? 0).
Qed.

Lemma sweep_batch_reaches cutoff chunk_size w :
  reaches w (snd (sweep_batch cutoff chunk_size w)).
Proof.
  apply atomic_reaches. apply tx_sound_bind; [apply tx_sound_select_stale|].
  intros [|tx batch]; [by apply tx_sound_pure|].
  apply tx_sound_bind; [|intros; by apply tx_sound_pure].
  apply tx_sound_for_each. intros x.
  apply tx_sound_bind; [|intros; by apply tx_sound_pure].
  apply tx_sound_savepoint, tx_sound_reverse.
Qed.

Lemma sweep_loop_reaches fuel cutoff chunk_size total w :
  reaches w (snd (sweep_loop fuel cutoff chunk_size total w)).
Proof.
  revert total w. induction fuel as [|fuel IH]; intros total w; simpl.
  - apply rtc_refl.
  - pose proof (sweep_batch_reaches cutoff chunk_size w) as Hb.
    destruct (sweep_batch cutoff chunk_size w) as [[[n|]|e] w']; simpl in *; auto.
    etrans; [exact Hb|apply IH].
Qed.

Lemma exec_op_reaches o w : reaches w (exec_op o w).
Proof.
  destruct o; simpl.
  - apply rtc_once, reserve_credits_step.
  - apply rtc_once, commit_reservation_step.
  - apply rtc_once, reverse_reservation_step.
  - apply rtc_once, top_up_step.
  - apply sweep_loop_reaches.
  - apply rtc_once. unfold tick. apply step_env. lia.
Qed.

Lemma run_reaches ops w : reaches w (run ops w).
Proof.
  revert w. induction ops as [|o ops IH]; intros w; simpl.
  - apply rtc_refl.
  - etrans; [apply exec_op_reaches|apply IH].
Qed.

(** ** Invariants of the committed steps *)

(** Every hold is a debit: a PENDING row never has a positive delta. *)
Definition pending_nonpos (w : World) : Prop :=
  Forall (λ r, tx_status r = PENDING → delta r ≤ 0) (ledger w).

Definition solvent (w : World) (wid : Z) : Prop :=
  ∃ wl, wallets w !! wid = Some wl ∧ 0 ≤ balance wl.

Lemma pending_nonpos_mark pk st l :
  st ≠ PENDING →
  Forall (λ r, tx_status r = PENDING → delta r ≤ 0) l →
  Forall (λ r, tx_status r = PENDING → delta r ≤ 0)
         (mark_rows pk (with_tx_status st) l).
Proof.
  intros Hst H. unfold mark_rows. apply Forall_map.
  eapply Forall_impl; [exact H|]. intros r Hr. simpl.
  destruct (pk_is pk r); simpl; [congruence|done].
Qed.

Lemma pending_nonpos_mark_note pk st n l :
  st ≠ PENDING →
  Forall (λ r, tx_status r = PENDING → delta r ≤ 0) l →
  Forall (λ r, tx_status r = PENDING → delta r ≤ 0)
         (mark_rows pk (λ x, with_note n (with_tx_status st x)) l).
Proof.
  intros Hst H. unfold mark_rows. apply Forall_map.
  eapply Forall_impl; [exact H|]. intros r Hr. simpl.
  destruct (pk_is pk r); simpl; [congruence|done].
Qed.

Lemma step_pending_nonpos w w' : step w w' → pending_nonpos w → pending_nonpos w'.
Proof.
  unfold pending_nonpos.
  destruct 1 as [w nid clk _|w wid wl n key rid nt _ Hn _ _|w r _ _
                |w r reason wl _ _ _|w wid wl n nt _ _]; simpl; intros H.
  - done.
  - apply Forall_app. split; [done|]. apply Forall_singleton. simpl. lia.
  - by apply pending_nonpos_mark.
  - apply Forall_app. split; [by apply pending_nonpos_mark_note|].
    apply Forall_singleton. simpl. congruence.
  - apply Forall_app. split; [done|]. apply Forall_singleton. simpl. congruence.
Qed.

Lemma pending_row_nonpos w r pk :
  pending_nonpos w → List.filter (pk_is pk) (ledger w) = [r] →
  tx_status r = PENDING → delta r ≤ 0.
Proof.
  intros H E Hs. apply filter_singleton_elem in E as [Hin _].
  unfold pending_nonpos in H. rewrite Forall_forall in H.
  apply H; [|done]. by apply list_elem_of_In.
Qed.

Lemma solvent_insert w wid k wl b :
  wallets w !! k = Some wl → (k = wid → 0 ≤ balance wl → 0 ≤ b) →
  solvent w wid →
  ∃ wl', <[k := with_balance b wl]> (wallets w) !! wid = Some wl' ∧ 0 ≤ balance wl'.
Proof.
  intros Hk Hb (wl0 & Hw & H0).
  destruct (decide (k = wid)) as [->|Hne].
  - exists (with_balance b wl). rewrite lookup_insert_eq. split; [done|].
    rewrite Hk in Hw. injection Hw as ->. simpl. by apply Hb.
  - exists wl0. by rewrite lookup_insert_ne.
Qed.

Lemma step_solvent w w' wid :
  step w w' → pending_nonpos w → solvent w wid → solvent w' wid.
Proof.
  destruct 1 as [w nid clk _|w k wl n key rid nt Hk Hn Hle _|w r _ _
                |w r reason wl E Hs Hk|w k wl n nt Hk Hn]; intros Hp Hsolv;
    unfold solvent; simpl; try done.
  - eapply solvent_insert; eauto. lia.
  - rewrite Hk. eapply solvent_insert; eauto.
    pose proof (pending_row_nonpos _ _ _ Hp E Hs). lia.
  - eapply solvent_insert; eauto. lia.
Qed.

(** ** The conservation law of the ledger *)

Definition credit_or_refund (r : CreditTransaction) : bool :=
  has_type CREDIT r || has_type REFUND r.

(** The quantity of the specification: holds and final debits added back,
    credits and refunds taken off. *)
Definition spec_quantity (w : World) (wid : Z) : Z :=
  balance_of w wid
  + sum_abs wid (is_row DEBIT PENDING) w
  + sum_abs wid (is_row DEBIT COMMITTED) w
  - sum_abs wid credit_or_refund w.

(** The same with the debits of every status. *)
Definition ledger_quantity (w : World) (wid : Z) : Z :=
  balance_of w wid + sum_abs wid (has_type DEBIT) w - sum_abs wid credit_or_refund w.

Definition abs_delta (r : CreditTransaction) : Z := Z.abs (delta r).

Lemma sum_filter_app (q : CreditTransaction → bool) l1 l2 :
  sumZ (map abs_delta (List.filter q (l1 ++ l2)))
  = sumZ (map abs_delta (List.filter q l1)) + sumZ (map abs_delta (List.filter q l2)).
Proof. by rewrite List.filter_app, List.map_app, sumZ_app. Qed.

Lemma sum_filter_map (q : CreditTransaction → bool) f l :
  (∀ x, q (f x) = q x ∧ delta (f x) = delta x) →
  sumZ (map abs_delta (List.filter q (map f l)))
  = sumZ (map abs_delta (List.filter q l)).
Proof.
  intros Hf. induction l as [|x l IH]; simpl; [done|].
  destruct (Hf x) as [-> Hd]. destruct (q x); simpl; [|done].
  unfold abs_delta at 1 3. rewrite Hd. by rewrite IH.
Qed.

Lemma sum_abs_typed_mark wid (p : CreditTransaction → bool) pk f l ns nid clk ws :
  (∀ x, wallet_id (f x) = wallet_id x ∧ p (f x) = p x ∧ delta (f x) = delta x) →
  sum_abs wid p (mkWorld ws (mark_rows pk f l ++ ns) nid clk)
  = sumZ (map abs_delta (List.filter (λ r, (wallet_id r =? wid) && p r) l))
    + sumZ (map abs_delta (List.filter (λ r, (wallet_id r =? wid) && p r) ns)).
Proof.
  intros Hf. unfold sum_abs, rows_of. simpl.
  fold abs_delta. rewrite sum_filter_app. f_equal.
  unfold mark_rows. apply sum_filter_map. intros x.
  destruct (pk_is pk x); [|done].
  destruct (Hf x) as (-> & -> & ->). done.
Qed.

Lemma sum_abs_app wid p ws l ns nid clk :
  sum_abs wid p (mkWorld ws (l ++ ns) nid clk)
  = sumZ (map abs_delta (List.filter (λ r, (wallet_id r =? wid) && p r) l))
    + sumZ (map abs_delta (List.filter (λ r, (wallet_id r =? wid) && p r) ns)).
Proof. unfold sum_abs, rows_of. simpl. fold abs_delta. apply sum_filter_app. Qed.

Lemma sum_abs_unfold wid p w :
  sum_abs wid p w
  = sumZ (map abs_delta (List.filter (λ r, (wallet_id r =? wid) && p r) (ledger w))).
Proof. done. Qed.

Lemma balance_of_insert ws l nid clk k wl b wid :
  balance_of (mkWorld (<[k := with_balance b wl]> ws) l nid clk) wid
  = if decide (k = wid) then b else default 0 (balance <$> ws !! wid).
Proof.
  unfold balance_of; simpl. destruct (decide (k = wid)) as [->|Hne].
  - by rewrite lookup_insert_eq.
  - by rewrite lookup_insert_ne.
Qed.

Lemma balance_of_lookup w wid wl : wallets w !! wid = Some wl → balance_of w wid = balance wl.
Proof. unfold balance_of. by intros ->. Qed.

Lemma step_ledger_quantity w w' wid :
  step w w' → pending_nonpos w → ledger_quantity w' wid = ledger_quantity w wid.
Proof.
  destruct 1 as [w nid clk _|w k wl n key rid nt Hk Hn Hle _|w r _ _
                |w r reason wl E Hs Hk|w k wl n nt Hk Hn]; intros Hp;
    unfold ledger_quantity.
  - done.
  - unfold reserved_world. rewrite balance_of_insert, !sum_abs_app.
    rewrite !sum_abs_unfold. unfold balance_of. simpl.
    destruct (decide (k = wid)) as [->|Hne].
    + rewrite Hk, Z.eqb_refl. simpl. unfold abs_delta; simpl. lia.
    + destruct (Z.eqb_spec k wid); [done|]. simpl. lia.
  - unfold committed_world. rewrite <- (app_nil_r (mark_rows _ _ _)).
    rewrite !sum_abs_typed_mark by done. rewrite !sum_abs_unfold. simpl.
    unfold balance_of. simpl. lia.
  - pose proof (pending_row_nonpos _ _ _ Hp E Hs) as Hd.
    unfold reversed_world. rewrite Hk, balance_of_insert.
    rewrite !sum_abs_typed_mark by done. rewrite !sum_abs_unfold.
    unfold balance_of. simpl.
    destruct (decide (wallet_id r = wid)) as [Heq|Hne].
    + rewrite Heq in *. rewrite Hk, Z.eqb_refl. simpl. unfold abs_delta; simpl. lia.
    + destruct (Z.eqb_spec (wallet_id r) wid); [done|]. simpl. lia.
  - unfold topped_up_world. rewrite balance_of_insert, !sum_abs_app.
    rewrite !sum_abs_unfold. unfold balance_of. simpl.
    destruct (decide (k = wid)) as [->|Hne].
    + rewrite Hk, Z.eqb_refl. simpl. unfold abs_delta; simpl. lia.
    + destruct (Z.eqb_spec k wid); [done|]. simpl. lia.
Qed.

Lemma reaches_pending_nonpos w w' : reaches w w' → pending_nonpos w → pending_nonpos w'.
Proof. induction 1; eauto using step_pending_nonpos. Qed.

Lemma reaches_solvent w w' wid :
  reaches w w' → pending_nonpos w → solvent w wid → solvent w' wid.
Proof. induction 1; eauto using step_pending_nonpos, step_solvent. Qed.

Lemma reaches_ledger_quantity w w' wid :
  reaches w w' → pending_nonpos w → ledger_quantity w' wid = ledger_quantity w wid.
Proof.
  induction 1 as [|w1 w2 w3 H12 _ IH]; intros Hp; [done|].
  rewrite IH by eauto using step_pending_nonpos.
  by apply step_ledger_quantity.
Qed.

(** ** Rows and primary keys *)

#[global] Instance CreditTransaction_eq_dec : EqDecision CreditTransaction.
Proof. solve_decision. Defined.

(** The sequence is ahead of every id in use. *)
Definition seq_ahead (w : World) : Prop :=
  Forall (λ r, tx_id r < next_id w) (ledger w).

Lemma filter_pk_mark pk f l :
  (∀ x, tx_id (f x) = tx_id x) →
  List.filter (pk_is pk) (mark_rows pk f l) = map f (List.filter (pk_is pk) l).
Proof.
  intros Hf. induction l as [|x l IH]; simpl; [done|].
  destruct (pk_is pk x) eqn:E; simpl.
  - unfold pk_is in *. rewrite Hf, E. simpl. by rewrite IH.
  - rewrite E. apply IH.
Qed.

Lemma filter_pk_mark_other pk pk' f l :
  (∀ x, tx_id (f x) = tx_id x) →
  List.filter (pk_is pk') (mark_rows pk f l)
  = mark_rows pk f (List.filter (pk_is pk') l).
Proof.
  intros Hf. unfold mark_rows. apply filter_map_commute.
  intros x. destruct (pk_is pk x); [|done]. unfold pk_is. by rewrite Hf.
Qed.

(** With a single row of that key, marking touches that row and no other. *)
Lemma mark_rows_unique pk f l r :
  List.filter (pk_is pk) l = [r] →
  mark_rows pk f l = map (λ x, if decide (x = r) then f r else x) l.
Proof.
  intros E. unfold mark_rows. apply map_ext_in. intros x Hx.
  destruct (pk_is pk x) eqn:Hp.
  - assert (In x (List.filter (pk_is pk) l)) as Hin by (apply filter_In; auto).
    rewrite E in Hin. destruct Hin as [->|[]]. by rewrite decide_True.
  - rewrite decide_False; [done|]. intros ->.
    apply filter_singleton_elem in E as [_ Hr]. congruence.
Qed.

Lemma filter_pk_fresh w :
  seq_ahead w → List.filter (pk_is (next_id w)) (ledger w) = [].
Proof.
  intros H. apply filter_none. eapply Forall_impl; [exact H|].
  intros r Hr. simpl in Hr. unfold pk_is. apply Z.eqb_neq. lia.
Qed.

Lemma mark_rows_none pk f l :
  List.filter (pk_is pk) l = [] → mark_rows pk f l = l.
Proof.
  intros E. apply filter_nil_inv in E. unfold mark_rows.
  rewrite <- (map_id l) at 2. apply map_ext_in. intros x Hx.
  rewrite Forall_forall in E. rewrite E; [done|]. by apply list_elem_of_In.
Qed.

(** ** Worked example *)

Definition acme : World :=
  mkWorld {[ 1 := mkWallet "acme" 10 0 ]} [] 1 1000.

Definition hold3 : CreditTransaction :=
  mkCreditTransaction 1 1 (-3) DEBIT PENDING None None "api-request" 1000.

(** ** Reservations that go through or bounce *)

Lemma reserve_fresh_paid wid amount key rid nt w wl :
  wallets w !! wid = Some wl → amount ≤ balance wl →
  reserve_fresh wid amount key rid nt w
  = (Returned (new_debit wid amount key rid nt w),
     reserved_world wid amount key rid nt wl w).
Proof.
  intros Hw Hb. unfold reserve_fresh. rewrite Hw.
  by destruct (Z.leb_spec amount (balance wl)); [|lia].
Qed.

Lemma reserve_fresh_bounced wid amount key rid nt w wl :
  wallets w !! wid = Some wl → balance wl < amount →
  reserve_fresh wid amount key rid nt w
  = (Raised (InsufficientCredits "Insufficient credits"), seq_advanced w).
Proof.
  intros Hw Hb. unfold reserve_fresh. rewrite Hw.
  by destruct (Z.leb_spec amount (balance wl)); [lia|].
Qed.

(** No row answers the key of the call: the key is absent or empty, or no
    row of the wallet carries it. *)
Definition no_hit (wid : Z) (key : option string) (w : World) : Prop :=
  match truthy key with
  | Some k => List.filter (key_is wid k) (ledger w) = []
  | None => True
  end.

Lemma reserve_credits_no_hit wid amount key rid nt w :
  0 < amount → no_hit wid key w →
  ReserveCreditsService wid amount key rid nt w
  = reserve_fresh wid amount (truthy key) rid nt w.
Proof.
  intros Ha Hn. rewrite reserve_credits_run.
  destruct (Z.leb_spec amount 0) as [|_]; [lia|].
  unfold no_hit in Hn. destruct (truthy key) as [k|]; [|done]. by rewrite Hn.
Qed.

Lemma truthy_nonempty k : k ≠ EmptyString → truthy (Some k) = Some k.
Proof.
  intros Hk. simpl. destruct (String.eqb_spec k EmptyString); [done|done].
Qed.

(** ** A reversal that goes through *)


Lemma with_balance_same wl : with_balance (balance wl) wl = wl.
Proof. by destruct wl. Qed.

Lemma filter_pk_appended w row :
  seq_ahead w → tx_id row = next_id w →
  List.filter (pk_is (tx_id row)) (ledger w ++ [row]) = [row].
Proof.
  intros Hs Hid. rewrite List.filter_app. rewrite Hid at 1.
  rewrite filter_pk_fresh by done. simpl. unfold pk_is. by rewrite Z.eqb_refl.
Qed.


(** ** Terminal calls on one reservation *)

Inductive Terminal :=
  | DoCommit
  | DoReverse (reason : string).

Definition terminal_call (c : Terminal) (tx : CreditTransaction)
    : Prog CreditTransaction :=
  match c with
  | DoCommit => commit_reservation tx
  | DoReverse reason => reverse_reservation tx reason
  end.

(** The store after the calls [cs] on [tx], one after the other. *)
Definition replay (tx : CreditTransaction) (cs : list Terminal) (w : World) : World :=
  fold_left (λ w c, snd (terminal_call c tx w)) cs w.

(** The row of [tx], when there is exactly one, is no longer PENDING. *)
Definition settled (tx : CreditTransaction) (w : World) : Prop :=
  ∀ r, List.filter (pk_is (tx_id tx)) (ledger w) = [r] → tx_status r ≠ PENDING.

Lemma settled_call_noop c tx w : settled tx w → snd (terminal_call c tx w) = w.
Proof.
  intros Hs. unfold settled in Hs.
  destruct c as [|reason]; simpl;
    [rewrite commit_reservation_run|rewrite reverse_reservation_run];
    destruct (List.filter _ _) as [|r [|r' l]]; try done;
    (destruct (bool_decide (tx_status r = PENDING)) eqn:Hp; [|done]);
    apply bool_decide_eq_true in Hp; by destruct (Hs r).
Qed.

Lemma settled_replay tx cs w : settled tx w → replay tx cs w = w.
Proof.
  intros Hs. induction cs as [|c cs IH]; simpl; [done|].
  by rewrite settled_call_noop.
Qed.

Lemma terminal_call_settles c tx w x w1 :
  terminal_call c tx w = (Returned x, w1) → settled tx w1.
Proof.
  destruct c as [|reason]; simpl;
    [rewrite commit_reservation_run|rewrite reverse_reservation_run];
    destruct (List.filter _ _) as [|r [|r' l]] eqn:E; try done;
    pose proof (filter_singleton_elem _ _ _ E) as [_ Hpk];
    apply Z.eqb_eq in Hpk;
    (destruct (bool_decide (tx_status r = PENDING)) eqn:Hp;
     [|intros [= <- <-] r0 E0; rewrite E in E0; injection E0 as <-;
       by apply bool_decide_eq_false in Hp]).
  - intros [= <- <-] r0 E0. unfold committed_world in E0; simpl in E0.
    rewrite Hpk, filter_pk_mark, E in E0 by done. by injection E0 as <-.
  - destruct (wallets w !! wallet_id r); [|done].
    intros [= <- <-] r0 E0. unfold reversed_world in E0; simpl in E0.
    rewrite List.filter_app, Hpk, filter_pk_mark, E in E0 by done.
    simpl in E0. by injection E0 as <-.
Qed.

(** ** The wrapped view, once the reservation is made *)

Definition reserve_call (wid : Z) (request : HttpRequest) (uuid4 : string) : Call :=
  CallReserve wid 1 (headers request !! "Idempotency-Key") (Some uuid4) "api-request".

(** What happens to the reservation when the view is done: the call and its
    effect on the store. *)
Definition exit_call (c : Terminal) (tx : CreditTransaction) : Call :=
  match c with
  | DoCommit => CallCommit tx
  | DoReverse reason => CallReverse tx reason
  end.


Lemma _wrapped_after_view get_wallet view_func uuid4 request w cs wid tx w1 o w2 :
  get_wallet request = Some wid →
  ReserveCreditsService wid 1 (headers request !! "Idempotency-Key") (Some uuid4)
    "api-request" w = (Returned tx, w1) →
  view_func request w1 = (o, w2) →
  _wrapped get_wallet view_func uuid4 request (mkSession w cs)
  = match o with
    | Returned response =>
        let c := if success_of response then DoCommit
                 else DoReverse ("http " +:+ pretty (status_of response)) in
        let '(oc, w3) := terminal_call c tx w2 in
        (match oc with Returned _ => Returned response | Raised e => Raised e end,
         mkSession w3 (cs ++ [reserve_call wid request uuid4; CallView; exit_call c tx]))
    | Raised e =>
        if is_Exception e
        then
          let '(oc, w3) := terminal_call (DoReverse "exception") tx w2 in
          (match oc with Returned _ => Raised e | Raised e' => Raised e' end,
           mkSession w3 (cs ++ [reserve_call wid request uuid4; CallView;
                                CallReverse tx "exception"]))
        else (Raised e, mkSession w2 (cs ++ [reserve_call wid request uuid4; CallView]))
    end.
Proof.
  intros Hg Hr Hv. unfold _wrapped. rewrite Hg.
  unfold bind, try_except, invoke, ret, raise. simpl. rewrite Hr. simpl.
  rewrite Hv. unfold reserve_call.
  destruct o as [response|e]; simpl.
  - destruct (success_of response); simpl.
    + destruct (commit_reservation tx w2) as [[x|e] w3]; simpl;
        by rewrite <- !app_assoc.
    + destruct (reverse_reservation tx _ w2) as [[x|e] w3]; simpl;
        by rewrite <- !app_assoc.
  - destruct (is_Exception e); simpl.
    + destruct (reverse_reservation tx _ w2) as [[x|e'] w3]; simpl;
        by rewrite <- !app_assoc.
    + by rewrite <- !app_assoc.
Qed.

Definition is_exit (c : Call) : bool :=
  match c with
  | CallCommit _ | CallReverse _ _ => true
  | _ => false
  end.

(** The commits and reverses of a log of calls. *)
Definition exits (cs : list Call) : list Call := List.filter is_exit cs.


Lemma success_of_spec response :
  success_of response = true ↔ 200 ≤ status_of response < 400.
Proof. unfold success_of. rewrite andb_true_iff, Z.leb_le, Z.ltb_lt. done. Qed.

(** ** The sweep

    The invariant of the loop relates the ledger to the ledger [l0] the
    sweep started from: the rows of [l0] in their order, some of the stale
    ones expired, followed by the refunds written so far. *)

Definition expire (r : CreditTransaction) : CreditTransaction :=
  with_note "expired" (with_tx_status REVERSED r).

Definition count_stale (cutoff : Z) (l : list CreditTransaction) : nat :=
  length (List.filter (stale cutoff) l).

Definition is_refund (x : CreditTransaction) : Prop :=
  tx_type x = REFUND ∧ tx_status x = COMMITTED.

Definition kept_or_expired (cutoff : Z) (r r' : CreditTransaction) : Prop :=
  r' = r ∨ (stale cutoff r = true ∧ r' = expire r).

Definition wallets_exist (w : World) : Prop :=
  Forall (λ r, is_Some (wallets w !! wallet_id r)) (ledger w).

Definition sweep_inv (cutoff : Z) (l0 : list CreditTransaction) (k : nat) (w : World)
    : Prop :=
  (∃ l1 R, ledger w = l1 ++ R ∧ Forall2 (kept_or_expired cutoff) l0 l1 ∧
           Forall is_refund R ∧ length R = k) ∧
  NoDup (map tx_id (ledger w)) ∧
  seq_ahead w ∧
  wallets_exist w ∧
  (count_stale cutoff (ledger w) + k = count_stale cutoff l0)%nat.

Lemma stale_pending cutoff r : stale cutoff r = true → tx_status r = PENDING.
Proof.
  unfold stale. rewrite andb_true_iff. intros [H _]. by apply bool_decide_eq_true in H.
Qed.

Lemma stale_expire cutoff r : stale cutoff (expire r) = false.
Proof. done. Qed.

Lemma NoDup_of_map {A B} (f : A → B) (l : list A) : NoDup (map f l) → NoDup l.
Proof.
  induction l as [|a l IH]; simpl; intros H; [constructor|].
  apply NoDup_cons in H as [H1 H2]. apply NoDup_cons. split; [|auto].
  intros Hin. apply H1. apply list_elem_of_In, in_map. by apply list_elem_of_In.
Qed.

Lemma unique_row (l : list CreditTransaction) (x : CreditTransaction) :
  NoDup (map tx_id l) → In x l → List.filter (pk_is (tx_id x)) l = [x].
Proof.
  induction l as [|y l IH]; simpl; [done|].
  intros Hnd Hin. apply NoDup_cons in Hnd as [Hy Hnd].
  rewrite list_elem_of_In in Hy.
  unfold pk_is at 1. destruct (Z.eqb_spec (tx_id y) (tx_id x)) as [Heq|Hne].
  - destruct Hin as [->|Hin].
    + f_equal. apply filter_none. apply List.Forall_forall. intros z Hz.
      unfold pk_is. apply Z.eqb_neq. intros Hzx. apply Hy.
      rewrite <- Hzx. by apply in_map.
    + exfalso. apply Hy. rewrite Heq. by apply in_map.
  - destruct Hin as [->|Hin]; [done|]. by apply IH.
Qed.

Lemma map_replace_absent (x x' : CreditTransaction) l :
  ¬ In x l → map (λ y, if decide (y = x) then x' else y) l = l.
Proof.
  intros Hx. rewrite <- (map_id l) at 2. apply map_ext_in. intros y Hy.
  rewrite decide_False; [done|]. by intros ->.
Qed.

Lemma count_stale_replace cutoff (x x' : CreditTransaction) l :
  NoDup l → In x l → stale cutoff x = true → stale cutoff x' = false →
  S (count_stale cutoff (map (λ y, if decide (y = x) then x' else y) l))
  = count_stale cutoff l.
Proof.
  intros Hnd Hin Hx Hx'. unfold count_stale.
  induction l as [|y l IH]; simpl; [done|].
  apply NoDup_cons in Hnd as [Hy Hnd]. rewrite list_elem_of_In in Hy.
  destruct (decide (y = x)) as [->|Hne].
  - rewrite Hx, Hx'. simpl. by rewrite map_replace_absent.
  - destruct Hin as [?|Hin]; [done|].
    destruct (stale cutoff y); simpl; rewrite IH; done.
Qed.

Lemma count_stale_app cutoff l1 l2 :
  count_stale cutoff (l1 ++ l2) = (count_stale cutoff l1 + count_stale cutoff l2)%nat.
Proof. unfold count_stale. by rewrite List.filter_app, length_app. Qed.

Lemma sweep_inv_start cutoff w :
  NoDup (map tx_id (ledger w)) → seq_ahead w → wallets_exist w →
  sweep_inv cutoff (ledger w) 0 w.
Proof.
  intros Hnd Hseq Hfk. split; [|split; [done|split; [done|split; [done|lia]]]].
  exists (ledger w), []. rewrite app_nil_r. split; [done|].
  split; [|split; [constructor|done]].
  clear. induction (ledger w) as [|r l IH]; constructor; [by left|done].
Qed.

(** The ledger after the reversal of the one row [x]. *)
Lemma reversed_ledger_unique x reason w :
  NoDup (map tx_id (ledger w)) → In x (ledger w) →
  ledger (reversed_world x reason w)
  = map (λ y, if decide (y = x) then with_note reason (with_tx_status REVERSED x) else y)
        (ledger w)
    ++ [mkCreditTransaction (next_id w) (wallet_id x) (- delta x) REFUND COMMITTED
          None None (refund_note x reason) (clock w)].
Proof.
  intros Hnd Hin. unfold reversed_world. simpl.
  by rewrite (mark_rows_unique _ _ _ x) by by apply unique_row.
Qed.

Lemma kept_or_expired_replace cutoff x l0 l1 :
  stale cutoff x = true →
  Forall2 (kept_or_expired cutoff) l0 l1 →
  Forall2 (kept_or_expired cutoff) l0
          (map (λ y, if decide (y = x) then expire x else y) l1).
Proof.
  intros Hx. induction 1 as [|r r' l0' l1' Hr _ IH]; simpl; [constructor|].
  constructor; [|done].
  destruct (decide (r' = x)) as [->|Hne]; [|done].
  destruct Hr as [->|[_ ->]]; [by right|].
  apply stale_pending in Hx. discriminate Hx.
Qed.

Lemma sweep_inv_reversed cutoff l0 k w x :
  sweep_inv cutoff l0 k w → In x (ledger w) → stale cutoff x = true →
  sweep_inv cutoff l0 (S k) (reversed_world x "expired" w).
Proof.
  intros ((l1 & R & Hl & H2 & HR & Hk) & Hnd & Hseq & Hfk & Hc) Hin Hx.
  pose proof (stale_pending _ _ Hx) as Hpend.
  assert (HxR : ¬ In x R).
  { intros HinR. rewrite List.Forall_forall in HR. destruct (HR _ HinR). congruence. }
  assert (Hx1 : In x l1).
  { rewrite Hl in Hin. apply in_app_or in Hin as [?|?]; done. }
  pose proof (reversed_ledger_unique x "expired" w Hnd Hin) as Hled.
  change (with_note "expired" (with_tx_status REVERSED x)) with (expire x) in Hled.
  split; [|split; [|split; [|split]]].
  - exists (map (λ y, if decide (y = x) then expire x else y) l1),
           (R ++ [mkCreditTransaction (next_id w) (wallet_id x) (- delta x) REFUND
                    COMMITTED None None (refund_note x "expired") (clock w)]).
    split.
    { rewrite Hled, Hl, List.map_app, (map_replace_absent x _ R) by done.
      by rewrite <- app_assoc. }
    split.
    { by apply kept_or_expired_replace. }
    split.
    { apply Forall_app. split; [done|]. by apply Forall_singleton. }
    rewrite length_app. simpl. lia.
  - rewrite Hled, List.map_app. simpl.
    rewrite map_map.
    rewrite (map_ext _ tx_id) by (intros y; by destruct (decide (y = x)) as [->|]).
    apply NoDup_app. split; [done|]. split; [|apply NoDup_singleton].
    intros i Hi Hi'. apply list_elem_of_singleton in Hi'. subst i.
    rewrite list_elem_of_In in Hi. apply in_map_iff in Hi as (y & Hy & Hiny).
    unfold seq_ahead in Hseq. rewrite List.Forall_forall in Hseq.
    specialize (Hseq _ Hiny). simpl in Hseq. lia.
  - unfold seq_ahead. rewrite Hled. simpl. apply Forall_app. split.
    + apply Forall_map. eapply Forall_impl; [exact Hseq|]. intros y Hy. simpl in *.
      destruct (decide (y = x)) as [->|]; simpl; lia.
    + apply Forall_singleton. simpl. lia.
  - unfold wallets_exist. rewrite Hled.
    assert (Hx_fk : is_Some (wallets w !! wallet_id x)).
    { unfold wallets_exist in Hfk. rewrite List.Forall_forall in Hfk. by apply Hfk. }
    apply Forall_app. split.
    + apply Forall_map. eapply Forall_impl; [exact Hfk|]. intros y Hy. cbn beta in *.
      apply (proj2 (reversed_world_same_ids x "expired" w _)).
      by destruct (decide (y = x)) as [->|].
    + apply Forall_singleton.
      by apply (proj2 (reversed_world_same_ids x "expired" w _)).
  - rewrite Hled, count_stale_app.
    pose proof (count_stale_replace cutoff x (expire x) (ledger w)
                  (NoDup_of_map _ _ Hnd) Hin Hx (stale_expire cutoff x)) as Hcount.
    unfold count_stale at 2. simpl. lia.
Qed.

(** *** One batch *)

Definition chunk_ok (chunk_size : option Z) : Prop :=
  match chunk_size with
  | Some c => 0 < c
  | None => True
  end.

(** The batch [select_stale] returns under a positive (or no) limit. *)
Definition batch_of (cutoff : Z) (chunk_size : option Z) (l : list CreditTransaction)
    : list CreditTransaction :=
  let sorted := merge_sort id_le (List.filter (stale cutoff) l) in
  match chunk_size with
  | None => sorted
  | Some c => take (Z.to_nat c) sorted
  end.

Lemma select_stale_run cutoff chunk_size st :
  chunk_ok chunk_size →
  select_stale cutoff chunk_size st
  = (Returned (batch_of cutoff chunk_size (ledger (world st))), st).
Proof.
  intros Hc. unfold select_stale, bind, get_world, slice_to, batch_of.
  destruct chunk_size as [c|]; [|done]. simpl in Hc.
  by destruct (Z.ltb_spec c 0); [lia|].
Qed.

Lemma NoDup_list_filter {A} (p : A → bool) (l : list A) :
  NoDup l → NoDup (List.filter p l).
Proof.
  induction 1 as [|x l Hx _ IH]; simpl; [constructor|].
  destruct (p x); [|done]. constructor; [|done].
  intros Hin. apply Hx. apply list_elem_of_In in Hin.
  apply filter_In in Hin as [Hin _]. by apply list_elem_of_In.
Qed.

Lemma batch_of_sublist cutoff chunk_size l :
  batch_of cutoff chunk_size l
  `sublist_of` merge_sort id_le (List.filter (stale cutoff) l).
Proof.
  unfold batch_of. destruct chunk_size; [apply sublist_take|done].
Qed.

Lemma batch_of_rows cutoff chunk_size l :
  Forall (λ x, In x l ∧ stale cutoff x = true) (batch_of cutoff chunk_size l).
Proof.
  apply Forall_forall. intros x Hx.
  eapply elem_of_sublist in Hx; [|apply batch_of_sublist].
  rewrite merge_sort_Permutation in Hx.
  apply list_elem_of_In in Hx. by apply filter_In in Hx.
Qed.

Lemma batch_of_NoDup cutoff chunk_size l :
  NoDup l → NoDup (batch_of cutoff chunk_size l).
Proof.
  intros Hnd. eapply sublist_NoDup; [|apply batch_of_sublist].
  rewrite merge_sort_Permutation. by apply NoDup_list_filter.
Qed.

Lemma batch_of_length cutoff chunk_size l :
  chunk_ok chunk_size →
  (length (batch_of cutoff chunk_size l) ≤ count_stale cutoff l)%nat ∧
  (0 < count_stale cutoff l → 0 < length (batch_of cutoff chunk_size l))%nat.
Proof.
  intros Hc. unfold batch_of, count_stale.
  pose proof (Permutation_length
                (merge_sort_Permutation id_le (List.filter (stale cutoff) l))) as Hlen.
  destruct chunk_size as [c|]; simpl in *; [|lia].
  rewrite length_take. lia.
Qed.

Lemma expire_row_run x st :
  NoDup (map tx_id (ledger (world st))) → In x (ledger (world st)) →
  tx_status x = PENDING →
  (exec! savepoint (reverse_reservation_body x "expired") in ret tt) st
  = (Returned tt,
     mkTxState (reversed_world x "expired" (world st)) (deferred_fk st ++ [wallet_id x])).
Proof.
  intros Hnd Hin Hp. unfold bind, savepoint.
  rewrite reverse_reservation_body_run, (unique_row _ x) by done.
  by rewrite bool_decide_eq_true_2.
Qed.

Lemma for_each_expire_run cutoff l0 batch :
  ∀ k st,
    sweep_inv cutoff l0 k (world st) → NoDup batch →
    Forall (λ x, In x (ledger (world st)) ∧ stale cutoff x = true) batch →
    ∃ st',
      for_each batch
        (λ tx, exec! savepoint (reverse_reservation_body tx "expired") in ret tt) st
      = (Returned tt, st') ∧
      sweep_inv cutoff l0 (k + length batch) (world st') ∧
      deferred_fk st' = deferred_fk st ++ map wallet_id batch.
Proof.
  induction batch as [|x batch IH]; intros k st Hinv Hnd Hrows.
  - exists st. simpl. rewrite Nat.add_0_r, app_nil_r. done.
  - apply NoDup_cons in Hnd as [Hx Hnd].
    apply Forall_cons in Hrows as [[Hin Hst] Hrows].
    pose proof Hinv as (_ & Hids & _).
    simpl. unfold bind at 1.
    rewrite expire_row_run by (done || by eapply stale_pending).
    pose proof (sweep_inv_reversed _ _ _ _ _ Hinv Hin Hst) as Hinv'.
    destruct (IH (S k) (mkTxState (reversed_world x "expired" (world st))
                                 (deferred_fk st ++ [wallet_id x])) Hinv' Hnd)
      as (st' & Hrun & Hinv'' & Hfk).
    { apply Forall_forall. intros y Hyb. rewrite Forall_forall in Hrows.
      destruct (Hrows y Hyb) as [Hy Hsy]. split; [|done].
      assert (Hyx : y ≠ x) by (intros ->; done).
      cbn [world].
      rewrite (reversed_ledger_unique x "expired" (world st)) by done.
      apply in_or_app. left. apply in_map_iff. exists y.
      by rewrite decide_False. }
    exists st'. rewrite Hrun. split; [done|].
    split; [by replace (k + S (length batch))%nat with (S k + length batch)%nat by lia|].
    rewrite Hfk. simpl. by rewrite <- app_assoc.
Qed.

Lemma tx_sound_expire_batch (batch : list CreditTransaction) :
  tx_sound (for_each batch
              (λ tx, exec! savepoint (reverse_reservation_body tx "expired") in ret tt)).
Proof.
  apply tx_sound_for_each. intros x.
  apply tx_sound_bind; [|intros; by apply tx_sound_pure].
  apply tx_sound_savepoint, tx_sound_reverse.
Qed.

Lemma sweep_batch_run cutoff chunk_size l0 k w :
  sweep_inv cutoff l0 k w → chunk_ok chunk_size →
  let batch := batch_of cutoff chunk_size (ledger w) in
  (batch = [] → sweep_batch cutoff chunk_size w = (Returned None, w)) ∧
  (batch ≠ [] →
   ∃ w', sweep_batch cutoff chunk_size w = (Returned (Some (length batch)), w') ∧
         sweep_inv cutoff l0 (k + length batch) w').
Proof.
  intros Hinv Hc batch.
  assert (Hsel : select_stale cutoff chunk_size (mkTxState w []) =
                 (Returned batch, mkTxState w [])) by by apply select_stale_run.
  unfold sweep_batch, atomic.
  split.
  - intros Hnil. unfold bind at 1. rewrite Hsel, Hnil. simpl. by destruct w.
  - intros Hne. unfold bind at 1. rewrite Hsel.
    pose proof Hinv as (_ & Hids & _ & Hfk & _).
    destruct (for_each_expire_run cutoff l0 batch k (mkTxState w []))
      as (st' & Hrun & Hinv' & Hdef); [done|..].
    { apply batch_of_NoDup. by eapply NoDup_of_map. }
    { apply batch_of_rows. }
    exists (world st').
    destruct batch as [|x rest] eqn:Hb; [done|]. rewrite <- Hb in *.
    unfold bind at 1. cbv beta. rewrite Hrun. cbv beta iota.
    destruct (tx_sound_expire_batch batch _ _ _ Hrun) as (Hsame & _).
    assert (Hall : forallb (fk_holds (world st')) (deferred_fk st') = true).
    { rewrite Hdef. simpl. apply forallb_forall. intros i Hi.
      apply in_map_iff in Hi as (y & <- & Hy).
      unfold fk_holds. apply bool_decide_eq_true. apply Hsame. simpl.
      pose proof (batch_of_rows cutoff chunk_size (ledger w)) as Hrows.
      rewrite List.Forall_forall in Hrows. destruct (Hrows y Hy) as [Hin _].
      unfold wallets_exist in Hfk. rewrite List.Forall_forall in Hfk. by apply Hfk. }
    unfold ret. rewrite Hall. done.
Qed.

(** The loop comes to its end within the fuel and has then reversed every
    stale row. *)
Lemma sweep_loop_run cutoff chunk_size l0 :
  chunk_ok chunk_size →
  ∀ fuel total k w,
    sweep_inv cutoff l0 k w →
    (count_stale cutoff (ledger w) < fuel)%nat →
    ∃ w', sweep_loop fuel cutoff chunk_size total w
          = (Some (Returned (total + count_stale cutoff (ledger w))%nat), w') ∧
          sweep_inv cutoff l0 (k + count_stale cutoff (ledger w)) w' ∧
          count_stale cutoff (ledger w') = 0%nat.
Proof.
  intros Hc. induction fuel as [|fuel IH]; intros total k w Hinv Hfuel; [lia|].
  simpl.
  destruct (sweep_batch_run cutoff chunk_size l0 k w Hinv Hc) as [Hnil Hcons].
  pose proof (batch_of_length cutoff chunk_size (ledger w) Hc) as [Hle Hpos].
  destruct (batch_of cutoff chunk_size (ledger w)) as [|x rest] eqn:Hb.
  - rewrite Hnil by done. simpl in Hpos.
    assert (count_stale cutoff (ledger w) = 0%nat) as Hz by lia.
    exists w. rewrite Hz, !Nat.add_0_r. done.
  - destruct Hcons as (w' & Hrun & Hinv'); [done|]. rewrite Hrun.
    pose proof Hinv as (_ & _ & _ & _ & Hcnt).
    pose proof Hinv' as (_ & _ & _ & _ & Hcnt').
    assert (Hlen : (0 < length (x :: rest))%nat) by (simpl; lia).
    destruct (IH (total + length (x :: rest))%nat (k + length (x :: rest))%nat w' Hinv')
      as (w'' & Hloop & Hinv'' & Hz); [lia|].
    exists w''. rewrite Hloop. split; [f_equal; f_equal; f_equal; lia|].
    split; [|done].
    replace (k + count_stale cutoff (ledger w))%nat
      with (k + length (x :: rest) + count_stale cutoff (ledger w'))%nat by lia.
    done.
Qed.

(** With no stale row left, the rows the sweep started from are exactly
    the stale ones expired and the others as they were. *)
Lemma kept_or_expired_done cutoff l0 l1 :
  Forall2 (kept_or_expired cutoff) l0 l1 →
  List.filter (stale cutoff) l1 = [] →
  l1 = map (λ r, if stale cutoff r then expire r else r) l0.
Proof.
  induction 1 as [|r r' l0' l1' Hr _ IH]; simpl; [done|].
  intros Hf. destruct (stale cutoff r') eqn:Hs'; [done|].
  rewrite <- IH by done. f_equal.
  destruct Hr as [->|[-> ->]]; [by rewrite Hs'|done].
Qed.

(** ** Well-formed stores

    What the schema and the services maintain: distinct ids behind the
    sequence, rows that point to wallets, holds that are debits. Every
    store reached from one with an empty ledger is of this kind. *)

Definition store_ok (w : World) : Prop :=
  NoDup (map tx_id (ledger w)) ∧ seq_ahead w ∧ wallets_exist w ∧ pending_nonpos w.

Lemma map_tx_id_mark pk f l :
  (∀ x, tx_id (f x) = tx_id x) → map tx_id (mark_rows pk f l) = map tx_id l.
Proof.
  intros Hf. unfold mark_rows. rewrite map_map. apply map_ext.
  intros x. by destruct (pk_is pk x).
Qed.

Lemma NoDup_ids_snoc l nid row :
  NoDup (map tx_id l) → Forall (λ r, tx_id r < nid) l → tx_id row = nid →
  NoDup (map tx_id (l ++ [row])).
Proof.
  intros Hnd Hlt Hid. rewrite List.map_app. simpl.
  apply NoDup_app. split; [done|]. split; [|apply NoDup_singleton].
  intros i Hi Hi'. apply list_elem_of_singleton in Hi'. subst i.
  rewrite list_elem_of_In in Hi. apply in_map_iff in Hi as (y & Hy & Hiny).
  rewrite List.Forall_forall in Hlt. specialize (Hlt _ Hiny). simpl in Hlt. lia.
Qed.

Lemma Forall_mark_rows (P : CreditTransaction → Prop) pk f l :
  (∀ x, P x → P (f x)) → Forall P l → Forall P (mark_rows pk f l).
Proof.
  intros Hf H. unfold mark_rows. apply Forall_map.
  eapply Forall_impl; [exact H|]. intros x Hx. simpl.
  destruct (pk_is pk x); auto.
Qed.

Lemma wallets_exist_insert (ws : gmap Z Wallet) k v (l : list CreditTransaction) :
  Forall (λ r, is_Some (ws !! wallet_id r)) l →
  Forall (λ r, is_Some (<[k := v]> ws !! wallet_id r)) l.
Proof.
  intros H. eapply Forall_impl; [exact H|]. intros r Hr. simpl in *.
  rewrite lookup_insert_is_Some. destruct (decide (k = wallet_id r)); auto.
Qed.

Lemma step_store_ok w w' : step w w' → store_ok w → store_ok w'.
Proof.
  intros Hstep (Hnd & Hseq & Hfk & Hp).
  split; [|split; [|split; [|by eapply step_pending_nonpos]]];
    destruct Hstep as [w nid clk Hle|w k wl n key rid nt Hk Hn Hle _|w r E Hs
                      |w r reason wl E Hs Hk|w k wl n nt Hk Hn];
    unfold seq_ahead, wallets_exist in *; simpl.
  - done.
  - by apply (NoDup_ids_snoc _ (next_id w)).
  - by rewrite map_tx_id_mark.
  - apply (NoDup_ids_snoc _ (next_id w)); [by rewrite map_tx_id_mark| |done].
    by apply Forall_mark_rows.
  - by apply (NoDup_ids_snoc _ (next_id w)).
  - eapply Forall_impl; [exact Hseq|]. intros x Hx. simpl in *. lia.
  - apply Forall_app. split; [|apply Forall_singleton; simpl; lia].
    eapply Forall_impl; [exact Hseq|]. intros x Hx. simpl in *. lia.
  - by apply Forall_mark_rows.
  - apply Forall_app. split; [|apply Forall_singleton; simpl; lia].
    apply Forall_mark_rows; [done|].
    eapply Forall_impl; [exact Hseq|]. intros x Hx. simpl in *. lia.
  - apply Forall_app. split; [|apply Forall_singleton; simpl; lia].
    eapply Forall_impl; [exact Hseq|]. intros x Hx. simpl in *. lia.
  - done.
  - apply Forall_app. split; [by apply wallets_exist_insert|].
    apply Forall_singleton. simpl. rewrite lookup_insert_eq. eauto.
  - by apply Forall_mark_rows.
  - rewrite Hk. apply Forall_app. split.
    + apply wallets_exist_insert. by apply Forall_mark_rows.
    + apply Forall_singleton. simpl. rewrite lookup_insert_eq. eauto.
  - apply Forall_app. split; [by apply wallets_exist_insert|].
    apply Forall_singleton. simpl. rewrite lookup_insert_eq. eauto.
Qed.

Lemma reaches_store_ok w w' : reaches w w' → store_ok w → store_ok w'.
Proof. induction 1; eauto using step_store_ok. Qed.

Lemma run_store_ok ops w : store_ok w → store_ok (run ops w).
Proof. apply reaches_store_ok, run_reaches. Qed.

Lemma empty_ledger_store_ok w : ledger w = [] → store_ok w.
Proof.
  intros Hl. unfold store_ok, seq_ahead, wallets_exist, pending_nonpos.
  rewrite Hl. simpl. repeat split; constructor.
Qed.

(** ** The view and the reservation row

    A view that acts on the store through the services leaves the row of
    the reservation, alone under its id, and the wallet of that row. *)

Lemma step_keeps_id w w' pk :
  step w w' → (∃ r, In r (ledger w) ∧ tx_id r = pk) →
  ∃ r', In r' (ledger w') ∧ tx_id r' = pk.
Proof.
  intros Hstep (r & Hin & Hid).
  assert (Hmark : ∀ pk' f l, (∀ x, tx_id (f x) = tx_id x) → In r l →
            ∃ r', In r' (mark_rows pk' f l) ∧ tx_id r' = pk).
  { intros pk' f l Hf Hl. exists (if pk_is pk' r then f r else r). split.
    - unfold mark_rows. apply in_map_iff. by exists r.
    - by destruct (pk_is pk' r); rewrite ?Hf. }
  destruct Hstep as [w nid clk _|w k wl n key rid nt _ _ _ _|w r0 _ _
                    |w r0 reason wl _ _ _|w k wl n nt _ _]; simpl.
  - by exists r.
  - exists r. split; [apply in_or_app; by left|done].
  - by apply Hmark.
  - destruct (Hmark (tx_id r0)
                (λ x, with_note reason (with_tx_status REVERSED x)) (ledger w))
      as (r' & Hr' & Hid'); [done..|].
    exists r'. split; [apply in_or_app; by left|done].
  - exists r. split; [apply in_or_app; by left|done].
Qed.

Lemma reaches_keeps_id w w' pk :
  reaches w w' → (∃ r, In r (ledger w) ∧ tx_id r = pk) →
  ∃ r', In r' (ledger w') ∧ tx_id r' = pk.
Proof. induction 1; eauto using step_keeps_id. Qed.

Lemma reserve_returns_row wid amount key rid nt w tx w1 :
  ReserveCreditsService wid amount key rid nt w = (Returned tx, w1) →
  In tx (ledger w1).
Proof.
  rewrite reserve_credits_run.
  assert (Hf : ∀ k, reserve_fresh wid amount k rid nt w = (Returned tx, w1) →
                    In tx (ledger w1)).
  { intros k. unfold reserve_fresh. destruct (wallets w !! wid) as [wl|]; [|done].
    destruct (amount <=? balance wl); [|done]. intros [= <- <-]. simpl.
    apply in_or_app. right. by left. }
  destruct (amount <=? 0); [done|].
  destruct (truthy key) as [k|]; [|apply Hf].
  destruct (List.filter _ _) as [|r [|r' l]] eqn:E; [apply Hf| |done].
  intros [= <- <-]. by apply filter_singleton_elem in E as [? _].
Qed.

Lemma view_through_services_keeps_row wid amount key rid nt w tx w1 w2 :
  store_ok w →
  ReserveCreditsService wid amount key rid nt w = (Returned tx, w1) →
  reaches w1 w2 →
  ∃ r, List.filter (pk_is (tx_id tx)) (ledger w2) = [r] ∧
       is_Some (wallets w2 !! wallet_id r).
Proof.
  intros Hok Hres Hview.
  assert (Hok1 : store_ok w1).
  { eapply step_store_ok; [|exact Hok].
    pose proof (reserve_credits_step wid amount key rid nt w) as Hs.
    by rewrite Hres in Hs. }
  destruct (reaches_keeps_id w1 w2 (tx_id tx) Hview) as (r & Hin & Hid).
  { exists tx. split; [by eapply reserve_returns_row|done]. }
  destruct (reaches_store_ok _ _ Hview Hok1) as (Hnd & _ & Hfk & _).
  exists r. split.
  - rewrite <- Hid. by apply unique_row.
  - unfold wallets_exist in Hfk. rewrite List.Forall_forall in Hfk. by apply Hfk.
Qed.

(** ** Further worked examples *)

(** views.py: the charged view just answers 200. *)
Definition echo : HttpRequest → Prog HttpResponse :=
  λ _, ret (mkHttpResponse (Some 200) [("message", "Service did its job!")]).

Definition not_found : HttpRequest → Prog HttpResponse :=
  λ _, ret (mkHttpResponse (Some 404) []).

Definition crashing : HttpRequest → Prog HttpResponse :=
  λ _, raise (ViewException "RuntimeError").

Definition keyed_request : HttpRequest :=
  mkHttpRequest (Some 1) {[ "Idempotency-Key" := "k1" ]}.

Definition hold1 : CreditTransaction :=
  mkCreditTransaction 1 1 (-1) DEBIT PENDING (Some "k1") (Some "u-1") "api-request" 1000.

Definition acme_held : World :=
  mkWorld {[ 1 := mkWallet "acme" 9 0 ]} [hold1] 2 1000.

(** Two holds on one wallet, the first older than the cutoff of a
    sweep at the clock of the store, the second created at the cutoff. *)
Definition old_hold : CreditTransaction :=
  mkCreditTransaction 1 1 (-3) DEBIT PENDING None None "api-request" 1000.

Definition edge_hold : CreditTransaction :=
  mkCreditTransaction 2 1 (-2) DEBIT PENDING None None "api-request" 2000.

Definition acme_two_holds : World :=
  mkWorld {[ 1 := mkWallet "acme" 5 0 ]} [old_hold; edge_hold] 3 300002000.

(** * The properties of the specification *)

(** C1. A wallet whose balance is non-negative keeps a non-negative balance
    through every sequence of reserve, commit, reverse, top_up and sweep
    operations (and ticks of the clock), in every store whose PENDING rows
    are holds (no positive delta), the empty ledger among them; and a
    reservation either leaves the wallet table alone or takes [amount] off
    a balance that was at least [amount]. *)
Theorem balance_never_negative (w : World) (wid : Z) (wl : Wallet) (ops : list Op)
    (amount : Z) (key rid : option string) (nt : string) :
  pending_nonpos w → wallets w !! wid = Some wl → 0 ≤ balance wl →
  (∃ wl', wallets (run ops w) !! wid = Some wl' ∧ 0 ≤ balance wl') ∧
  (let w' := snd (ReserveCreditsService wid amount key rid nt w) in
   wallets w' = wallets w ∨
   (0 < amount ≤ balance wl ∧
    wallets w' = <[wid := with_balance (balance wl - amount) wl]> (wallets w))).
Proof.
  intros Hp Hw Hb. split.
  - apply (reaches_solvent w); [apply run_reaches|done|]. by exists wl.
  - simpl. rewrite reserve_credits_run.
    destruct (amount <=? 0) eqn:Ha; [by left|].
    assert (Hf : ∀ k, let w' := snd (reserve_fresh wid amount k rid nt w) in
      wallets w' = wallets w ∨
      (0 < amount ≤ balance wl ∧
       wallets w' = <[wid := with_balance (balance wl - amount) wl]> (wallets w))).
    { intros k. unfold reserve_fresh. rewrite Hw.
      destruct (amount <=? balance wl) eqn:Hle; simpl; [|by left].
      right. split; [lia|done]. }
    destruct (truthy key) as [k|]; [|apply Hf].
    destruct (List.filter _ _) as [|r [|r' l]]; [apply Hf|by left..].
Qed.

Lemma balance_never_negative_witness :
  pending_nonpos acme ∧ wallets acme !! 1 = Some (mkWallet "acme" 10 0) ∧
  (∃ wl', wallets (run [OpReserve 1 10 None None "a"; OpReserve 1 1 None None "b";
                        OpReverse hold3 "late"; OpTopUp 1 2 "gift";
                        OpTick 400000000;
                        OpSweep 3 (mkSettings None) None (Some 500)] acme) !! 1
          = Some wl' ∧ 0 ≤ balance wl') ∧
  (let w' := snd (ReserveCreditsService 1 10 None None "a" acme) in
   wallets w' = wallets acme ∨
   (0 < 10 ≤ 10 ∧
    wallets w' = <[1 := with_balance (10 - 10) (mkWallet "acme" 10 0)]> (wallets acme))).
Proof.
  split; [constructor|]. split; [reflexivity|].
  apply (balance_never_negative acme 1 (mkWallet "acme" 10 0)).
  - constructor.
  - reflexivity.
  - simpl. lia.
Defined.

(** C9. A reservation of a zero or negative amount raises [ValueError] (the
    InvalidAmount of the specification) and leaves the whole store as it
    was: no row, no balance change, no id drawn from the sequence. *)
Theorem reserve_invalid_amount (w : World) (wid amount : Z)
    (key rid : option string) (nt : string) :
  amount ≤ 0 →
  ReserveCreditsService wid amount key rid nt w
  = (Raised (ValueError "Amount must be > 0"), w).
Proof.
  intros Ha. rewrite reserve_credits_run.
  by destruct (Z.leb_spec amount 0); [|lia].
Qed.

Lemma reserve_invalid_amount_witness :
  -2 ≤ 0 ∧
  ReserveCreditsService 1 (-2) (Some "k") None "api-request" acme
  = (Raised (ValueError "Amount must be > 0"), acme).
Proof.
  split; [lia|]. apply (reserve_invalid_amount acme 1 (-2)). lia.
Defined.

(** C4, as the specification states it, fails: reversing a hold gives the
    credits back, drops the hold from the PENDING sum and adds a REFUND row,
    so the quantity falls by the amount of the hold. Wallet 1 starts with
    10 credits; after reserving 3 and reversing, the quantity is 7. *)
Lemma spec_quantity_not_invariant :
  let held := run [OpReserve 1 3 None None "api-request"] acme in
  let reversed := exec_op (OpReverse hold3 "exception") held in
  pending_nonpos acme ∧ ledger acme = [] ∧
  spec_quantity acme 1 = 10 ∧ spec_quantity held 1 = 10 ∧
  spec_quantity reversed 1 = 7 ∧
  spec_quantity reversed 1 ≠ spec_quantity held 1 ∧
  spec_quantity reversed 1 ≠ balance_of acme 1.
Proof. simpl. split; [constructor|]. by vm_compute. Qed.

(** C4, amended. With the debits of every status counted (PENDING,
    COMMITTED and REVERSED), balance + sum |delta| of DEBIT rows - sum
    |delta| of CREDIT and REFUND rows is preserved by every sequence of
    operations, in every store whose PENDING rows are holds; started from
    an empty ledger it equals the initial balance of the wallet. *)
Theorem ledger_quantity_invariant (w : World) (wid : Z) (ops : list Op) :
  pending_nonpos w →
  ledger_quantity (run ops w) wid = ledger_quantity w wid ∧
  (ledger w = [] → ledger_quantity (run ops w) wid = balance_of w wid).
Proof.
  intros Hp.
  assert (H : ledger_quantity (run ops w) wid = ledger_quantity w wid).
  { apply reaches_ledger_quantity; [apply run_reaches|done]. }
  split; [done|]. intros Hl. rewrite H.
  unfold ledger_quantity, sum_abs, rows_of. rewrite Hl. simpl. lia.
Qed.

Lemma ledger_quantity_invariant_witness :
  pending_nonpos acme ∧
  ledger_quantity (run [OpReserve 1 3 None None "api-request";
                        OpReverse hold3 "exception"] acme) 1
  = ledger_quantity acme 1 ∧
  (ledger acme = [] →
   ledger_quantity (run [OpReserve 1 3 None None "api-request";
                         OpReverse hold3 "exception"] acme) 1
   = balance_of acme 1).
Proof.
  split; [constructor|].
  apply (ledger_quantity_invariant acme 1). constructor.
Defined.

(** C10. An empty idempotency key is no key: the call is the call without a
    key, and on a wallet that can pay twice, two such calls insert two
    PENDING DEBIT rows with a NULL key and take the amount off twice. *)
Theorem empty_key_is_no_key (w : World) (wid amount : Z) (wl : Wallet)
    (rid rid2 : option string) (nt nt2 : string) :
  ReserveCreditsService wid amount (Some EmptyString) rid nt w
  = ReserveCreditsService wid amount None rid nt w ∧
  (0 < amount → wallets w !! wid = Some wl → 2 * amount ≤ balance wl →
   ∃ tx1 w1 tx2 w2,
     ReserveCreditsService wid amount (Some EmptyString) rid nt w = (Returned tx1, w1) ∧
     ReserveCreditsService wid amount (Some EmptyString) rid2 nt2 w1 = (Returned tx2, w2) ∧
     ledger w2 = ledger w ++ [tx1; tx2] ∧
     tx1 = new_debit wid amount None rid nt w ∧
     tx2 = new_debit wid amount None rid2 nt2 w1 ∧
     tx_id tx2 = tx_id tx1 + 1 ∧
     balance_of w1 wid = balance wl - amount ∧
     balance_of w2 wid = balance wl - 2 * amount).
Proof.
  split; [by rewrite !reserve_credits_run|].
  intros Ha Hw Hb.
  exists (new_debit wid amount None rid nt w),
         (reserved_world wid amount None rid nt wl w).
  eexists _, _. rewrite !reserve_credits_run.
  destruct (Z.leb_spec amount 0) as [|_]; [lia|]. simpl.
  split; [by apply reserve_fresh_paid; [|lia]|].
  split.
  { apply (reserve_fresh_paid _ _ _ _ _ _ (with_balance (balance wl - amount) wl)).
    - simpl. apply lookup_insert_eq.
    - simpl. lia. }
  simpl. split; [by rewrite <- app_assoc|]. split; [done|]. split; [done|].
  split; [done|]. unfold balance_of; simpl.
  rewrite !lookup_insert_eq. simpl. lia.
Qed.

Lemma empty_key_is_no_key_witness :
  0 < 4 ∧ wallets acme !! 1 = Some (mkWallet "acme" 10 0) ∧ 2 * 4 ≤ 10 ∧
  ∃ tx1 w1 tx2 w2,
    ReserveCreditsService 1 4 (Some EmptyString) None "a" acme = (Returned tx1, w1) ∧
    ReserveCreditsService 1 4 (Some EmptyString) None "b" w1 = (Returned tx2, w2) ∧
    ledger w2 = ledger acme ++ [tx1; tx2] ∧
    tx1 = new_debit 1 4 None None "a" acme ∧
    tx2 = new_debit 1 4 None None "b" w1 ∧
    tx_id tx2 = tx_id tx1 + 1 ∧
    balance_of w1 1 = 10 - 4 ∧
    balance_of w2 1 = 10 - 2 * 4.
Proof.
  split; [lia|]. split; [reflexivity|]. split; [lia|].
  apply (empty_key_is_no_key acme 1 4 (mkWallet "acme" 10 0) None None "a" "b").
  - lia.
  - reflexivity.
  - simpl. lia.
Defined.

(** C2. A reservation of a positive amount that meets no idempotent hit, on
    a wallet that holds less than the amount, raises [InsufficientCredits]
    and leaves the wallet table and the ledger as they were (the inserted
    row is rolled back; the id it drew is not given back). On a wallet that
    holds exactly the amount the reservation goes through, the balance
    falls to zero, and every further such reservation of that amount
    bounces the same way. *)
Theorem insufficient_credits_rolls_back (w : World) (wid amount : Z) (wl : Wallet)
    (key rid : option string) (nt : string) :
  0 < amount → no_hit wid key w → wallets w !! wid = Some wl →
  (balance wl < amount →
   ∃ w', ReserveCreditsService wid amount key rid nt w
         = (Raised (InsufficientCredits "Insufficient credits"), w') ∧
         wallets w' = wallets w ∧ ledger w' = ledger w) ∧
  (balance wl = amount →
   ∃ tx w1,
     ReserveCreditsService wid amount key rid nt w = (Returned tx, w1) ∧
     ledger w1 = ledger w ++ [tx] ∧ balance_of w1 wid = 0 ∧
     ∀ key2 rid2 nt2, no_hit wid key2 w1 →
       ∃ w2, ReserveCreditsService wid amount key2 rid2 nt2 w1
             = (Raised (InsufficientCredits "Insufficient credits"), w2) ∧
             wallets w2 = wallets w1 ∧ ledger w2 = ledger w1).
Proof.
  intros Ha Hn Hw. split; intros Hb.
  - exists (seq_advanced w). rewrite reserve_credits_no_hit by done.
    by rewrite (reserve_fresh_bounced _ _ _ _ _ _ wl).
  - exists (new_debit wid amount (truthy key) rid nt w),
           (reserved_world wid amount (truthy key) rid nt wl w).
    rewrite reserve_credits_no_hit by done.
    rewrite (reserve_fresh_paid _ _ _ _ _ _ wl) by (done || lia).
    split; [done|]. split; [done|].
    split; [unfold balance_of; simpl; rewrite lookup_insert_eq; simpl; lia|].
    intros key2 rid2 nt2 Hn2. exists (seq_advanced (reserved_world wid amount (truthy key) rid nt wl w)).
    rewrite reserve_credits_no_hit by done.
    rewrite (reserve_fresh_bounced _ _ _ _ _ _ (with_balance (balance wl - amount) wl)); [done|..].
    + simpl. apply lookup_insert_eq.
    + simpl. lia.
Qed.

Lemma insufficient_credits_rolls_back_witness :
  (0 < 11 ∧ no_hit 1 (Some "k") acme ∧
   wallets acme !! 1 = Some (mkWallet "acme" 10 0) ∧ 10 < 11 ∧
   ∃ w', ReserveCreditsService 1 11 (Some "k") None "api-request" acme
         = (Raised (InsufficientCredits "Insufficient credits"), w') ∧
         wallets w' = wallets acme ∧ ledger w' = ledger acme) ∧
  (0 < 10 ∧ no_hit 1 None acme ∧
   wallets acme !! 1 = Some (mkWallet "acme" 10 0) ∧ 10 = 10 ∧
   ∃ tx w1,
     ReserveCreditsService 1 10 None None "api-request" acme = (Returned tx, w1) ∧
     ledger w1 = ledger acme ++ [tx] ∧ balance_of w1 1 = 0 ∧
     ∀ key2 rid2 nt2, no_hit 1 key2 w1 →
       ∃ w2, ReserveCreditsService 1 10 key2 rid2 nt2 w1
             = (Raised (InsufficientCredits "Insufficient credits"), w2) ∧
             wallets w2 = wallets w1 ∧ ledger w2 = ledger w1).
Proof.
  split.
  - split; [lia|]. split; [reflexivity|]. split; [reflexivity|]. split; [lia|].
    apply (proj1 (insufficient_credits_rolls_back acme 1 11 (mkWallet "acme" 10 0)
                    (Some "k") None "api-request"
                    ltac:(lia) ltac:(reflexivity) ltac:(reflexivity))).
    simpl. lia.
  - split; [lia|]. split; [reflexivity|]. split; [reflexivity|]. split; [lia|].
    apply (proj2 (insufficient_credits_rolls_back acme 1 10 (mkWallet "acme" 10 0)
                    None None "api-request"
                    ltac:(lia) ltac:(reflexivity) ltac:(reflexivity))).
    reflexivity.
Defined.





(** C6. Committing a PENDING row returns it with status COMMITTED and writes
    that status to the row: the wallet table, every other row and every
    other field of the row stay as they were. Committing a row that is not
    PENDING returns it and leaves the whole store as it was. Once a first
    commit or reverse of a reservation has returned, any further commits
    and reverses of it leave the store in the state that first call
    produced. *)
Theorem commit_touches_status_only (w : World) (tx r : CreditTransaction)
    (first : Terminal) (later : list Terminal) :
  List.filter (pk_is (tx_id tx)) (ledger w) = [r] →
  (tx_status r = PENDING →
   commit_reservation tx w
   = (Returned (with_tx_status COMMITTED r),
      mkWorld (wallets w)
        (map (λ x, if decide (x = r) then with_tx_status COMMITTED r else x) (ledger w))
        (next_id w) (clock w))) ∧
  (tx_status r ≠ PENDING → commit_reservation tx w = (Returned r, w)) ∧
  (∀ x w1, terminal_call first tx w = (Returned x, w1) → replay tx later w1 = w1).
Proof.
  intros E. split; [|split].
  - intros Hs. rewrite commit_reservation_run, E.
    rewrite bool_decide_eq_true_2 by done. unfold committed_world.
    pose proof (filter_singleton_elem _ _ _ E) as [_ Hpk]. apply Z.eqb_eq in Hpk.
    rewrite <- Hpk in E. by rewrite (mark_rows_unique _ _ _ r).
  - intros Hs. rewrite commit_reservation_run, E.
    by rewrite bool_decide_eq_false_2.
  - intros x w1 H. apply settled_replay. by eapply terminal_call_settles.
Qed.

Lemma commit_touches_status_only_witness :
  let w := run [OpReserve 1 3 None None "api-request"] acme in
  let w1 := snd (commit_reservation hold3 w) in
  (List.filter (pk_is (tx_id hold3)) (ledger w) = [hold3] ∧
   tx_status hold3 = PENDING ∧
   commit_reservation hold3 w
   = (Returned (with_tx_status COMMITTED hold3),
      mkWorld (wallets w)
        (map (λ x, if decide (x = hold3) then with_tx_status COMMITTED hold3 else x)
             (ledger w))
        (next_id w) (clock w)) ∧
   (∀ x w2, terminal_call (DoReverse "http 500") hold3 w = (Returned x, w2) →
            replay hold3 [DoCommit; DoReverse "late"; DoCommit] w2 = w2)) ∧
  (List.filter (pk_is (tx_id hold3)) (ledger w1) = [with_tx_status COMMITTED hold3] ∧
   tx_status (with_tx_status COMMITTED hold3) ≠ PENDING ∧
   commit_reservation hold3 w1 = (Returned (with_tx_status COMMITTED hold3), w1)).
Proof.
  pose proof (commit_touches_status_only
                (run [OpReserve 1 3 None None "api-request"] acme) hold3 hold3
                (DoReverse "http 500") [DoCommit; DoReverse "late"; DoCommit]
                ltac:(reflexivity)) as (H1 & _ & H3).
  pose proof (commit_touches_status_only
                (snd (commit_reservation hold3
                        (run [OpReserve 1 3 None None "api-request"] acme)))
                hold3 (with_tx_status COMMITTED hold3) DoCommit []
                ltac:(reflexivity)) as (_ & H2 & _).
  split.
  - split; [reflexivity|]. split; [reflexivity|].
    split; [apply H1; reflexivity|exact H3].
  - split; [reflexivity|]. split; [discriminate|]. apply H2. discriminate.
Defined.



(** A [BaseException] that is no [Exception] goes through the wrapper: no
    commit, no reverse, the reservation stays PENDING for the sweeper. *)
Lemma wrapped_base_exception_leaves_pending :
  let interrupted : HttpRequest → Prog HttpResponse :=
    λ _, raise (ViewBaseException "KeyboardInterrupt") in
  _wrapped default_get_wallet interrupted "u-1" keyed_request (mkSession acme [])
  = (Raised (ViewBaseException "KeyboardInterrupt"),
     mkSession acme_held [reserve_call 1 keyed_request "u-1"; CallView]).
Proof. reflexivity. Qed.



(** The scenario of the specification: the older hold is reversed and
    refunded, the hold created at the cutoff stays PENDING. *)
Lemma sweep_boundary_example :
  let '(result, w') :=
    sweep_stale_reservations 2 (mkSettings None) None (Some 500) acme_two_holds in
  result = Some (Returned 1%nat) ∧
  ledger w'
  = [expire old_hold; edge_hold;
     mkCreditTransaction 3 1 3 REFUND COMMITTED None None
       "refund of tx 1: expired" 300002000] ∧
  balance_of w' 1 = 8.
Proof. by vm_compute. Qed.

(** A chunk size of zero selects no row: the sweep stops at once and
    reverses nothing, whatever is stale. *)
Lemma sweep_chunk_zero_example :
  sweep_stale_reservations 2 (mkSettings None) None (Some 0) acme_two_holds
  = (Some (Returned 0%nat), acme_two_holds).
Proof. reflexivity. Qed.

(** * Further properties of the services *)

(** ** All or nothing *)


(** X2. A reservation either raises and leaves both tables as they were, or
    returns a row already in the ledger and changes nothing at all (the
    idempotent hit), or returns the PENDING DEBIT row it appended and has
    taken the amount off a balance that covered it. *)
Theorem reserve_all_or_nothing (w : World) (wid amount : Z)
    (key rid : option string) (nt : string) :
  match ReserveCreditsService wid amount key rid nt w with
  | (Raised e, w') => wallets w' = wallets w ∧ ledger w' = ledger w
  | (Returned tx, w') =>
      (w' = w ∧ In tx (ledger w) ∧ wallet_id tx = wid ∧
       idempotency_key tx = key ∧ key ≠ None) ∨
      (0 < amount ∧ tx = new_debit wid amount (truthy key) rid nt w ∧
       ledger w' = ledger w ++ [tx] ∧
       ∃ wl, wallets w !! wid = Some wl ∧ amount ≤ balance wl ∧
             wallets w' = <[wid := with_balance (balance wl - amount) wl]> (wallets w))
  end.
Proof.
  rewrite reserve_credits_run. destruct (Z.leb_spec amount 0) as [Ha|Ha]; [done|].
  assert (Hf : ∀ k, k = truthy key →
    match reserve_fresh wid amount k rid nt w with
    | (Raised e, w') => wallets w' = wallets w ∧ ledger w' = ledger w
    | (Returned tx, w') =>
        (w' = w ∧ In tx (ledger w) ∧ wallet_id tx = wid ∧
         idempotency_key tx = key ∧ key ≠ None) ∨
        (0 < amount ∧ tx = new_debit wid amount (truthy key) rid nt w ∧
         ledger w' = ledger w ++ [tx] ∧
         ∃ wl, wallets w !! wid = Some wl ∧ amount ≤ balance wl ∧
               wallets w' = <[wid := with_balance (balance wl - amount) wl]> (wallets w))
    end).
  { intros k ->. unfold reserve_fresh.
    destruct (wallets w !! wid) as [wl|] eqn:Hw; [|done].
    destruct (Z.leb_spec amount (balance wl)); [|done].
    right. split; [done|]. split; [done|]. split; [done|]. by exists wl. }
  destruct (truthy key) as [k|] eqn:Hk; [|by apply Hf].
  destruct (List.filter _ _) as [|r [|r' l]] eqn:E; [by apply Hf| |done].
  left. apply filter_singleton_elem in E as [Hin Hr].
  unfold key_is in Hr. apply andb_true_iff in Hr as [Hwid Hkey].
  apply Z.eqb_eq in Hwid. apply bool_decide_eq_true in Hkey.
  split; [done|]. split; [done|]. split; [done|].
  destruct key as [s|]; [|done]. simpl in Hk.
  destruct (String.eqb s EmptyString); [done|]. injection Hk as ->. done.
Qed.

(** X3. A commit or a reverse that raises leaves both tables as they were; a
    commit that raises leaves the whole store. With no row of the id given,
    both raise [DoesNotExist]. *)
Theorem settle_all_or_nothing (w : World) (c : Terminal) (tx : CreditTransaction) :
  match terminal_call c tx w with
  | (Raised e, w') =>
      wallets w' = wallets w ∧ ledger w' = ledger w ∧ (c = DoCommit → w' = w)
  | (Returned r, w') => tx_id r = tx_id tx ∧ tx_status r ≠ PENDING
  end ∧
  (List.filter (pk_is (tx_id tx)) (ledger w) = [] →
   terminal_call c tx w = (Raised DoesNotExist, w)).
Proof.
  split.
  - destruct c as [|reason]; simpl;
      [rewrite commit_reservation_run|rewrite reverse_reservation_run];
      destruct (List.filter _ _) as [|r [|r' l]] eqn:E; try done;
      pose proof (filter_singleton_elem _ _ _ E) as [_ Hpk];
      apply Z.eqb_eq in Hpk;
      (destruct (bool_decide (tx_status r = PENDING)) eqn:Hp;
       [|by apply bool_decide_eq_false in Hp]); try done.
    by destruct (wallets w !! wallet_id r).
  - intros E. destruct c as [|reason]; simpl;
      [rewrite commit_reservation_run|rewrite reverse_reservation_run];
      by rewrite E.
Qed.

Lemma settle_all_or_nothing_witness :
  List.filter (pk_is (tx_id hold3)) (ledger acme) = [] ∧
  terminal_call (DoReverse "late") hold3 acme = (Raised DoesNotExist, acme).
Proof.
  split; [reflexivity|].
  apply (proj2 (settle_all_or_nothing acme (DoReverse "late") hold3)).
  reflexivity.
Defined.

(** ** The life of a row *)

(** How a row may look later: every field but status and note is as it
    was, and the row is either untouched or has left PENDING for good. *)
Definition evolves (r r' : CreditTransaction) : Prop :=
  tx_id r' = tx_id r ∧ wallet_id r' = wallet_id r ∧ delta r' = delta r ∧
  tx_type r' = tx_type r ∧ idempotency_key r' = idempotency_key r ∧
  request_id r' = request_id r ∧ created_at r' = created_at r ∧
  (r' = r ∨ (tx_status r = PENDING ∧ tx_status r' ≠ PENDING)).

Lemma evolves_refl r : evolves r r.
Proof. unfold evolves. repeat split; auto. Qed.

Lemma evolves_trans r1 r2 r3 : evolves r1 r2 → evolves r2 r3 → evolves r1 r3.
Proof.
  intros (A1 & A2 & A3 & A4 & A5 & A6 & A7 & A8) (B1 & B2 & B3 & B4 & B5 & B6 & B7 & B8).
  unfold evolves. repeat split; try congruence.
  destruct B8 as [->|[Hp Hn]]; [done|].
  destruct A8 as [->|[Hp' Hn']]; [by right|]. congruence.
Qed.

Lemma mark_rows_evolves pk f l r r0 :
  List.filter (pk_is pk) l = [r0] → tx_status r0 = PENDING →
  evolves r0 (f r0) → In r l →
  ∃ r', In r' (mark_rows pk f l) ∧ evolves r r'.
Proof.
  intros E Hp Hf Hin. exists (if pk_is pk r then f r else r). split.
  - unfold mark_rows. apply in_map_iff. by exists r.
  - destruct (pk_is pk r) eqn:Hr; [|apply evolves_refl].
    assert (In r (List.filter (pk_is pk) l)) as Hin' by (apply filter_In; auto).
    rewrite E in Hin'. destruct Hin' as [<-|[]]. done.
Qed.

Lemma step_row_evolves w w' r :
  step w w' → In r (ledger w) → ∃ r', In r' (ledger w') ∧ evolves r r'.
Proof.
  intros Hstep Hin.
  destruct Hstep as [w nid clk _|w k wl n key rid nt _ _ _ _|w r0 E Hs
                    |w r0 reason wl E Hs _|w k wl n nt _ _]; simpl.
  - exists r. split; [done|apply evolves_refl].
  - exists r. split; [apply in_or_app; by left|apply evolves_refl].
  - eapply mark_rows_evolves; eauto. unfold evolves. simpl. repeat split; auto;
      try (right; split; [done|discriminate]).
  - destruct (mark_rows_evolves (tx_id r0)
                (λ x, with_note reason (with_tx_status REVERSED x)) (ledger w) r r0)
      as (r' & Hr' & He); [done|done| |done|].
    { unfold evolves. simpl. repeat split; auto;
        try (right; split; [done|discriminate]). }
    exists r'. split; [apply in_or_app; by left|done].
  - exists r. split; [apply in_or_app; by left|apply evolves_refl].
Qed.

Lemma reaches_row_evolves w w' r :
  reaches w w' → In r (ledger w) → ∃ r', In r' (ledger w') ∧ evolves r r'.
Proof.
  intros H. revert r. induction H as [w|w1 w2 w3 H12 _ IH]; intros r Hin.
  - exists r. split; [done|apply evolves_refl].
  - destruct (step_row_evolves _ _ _ H12 Hin) as (r2 & Hin2 & He2).
    destruct (IH _ Hin2) as (r3 & Hin3 & He3).
    exists r3. split; [done|]. by eapply evolves_trans.
Qed.

(** X4. No operation deletes a row or rewrites its id, wallet, delta, type,
    key, request id or creation time; a row that is COMMITTED or REVERSED
    is found unchanged after any sequence of operations, and a PENDING row
    is found either unchanged or settled. *)
Theorem rows_are_kept (w : World) (ops : list Op) (r : CreditTransaction) :
  In r (ledger w) →
  ∃ r', In r' (ledger (run ops w)) ∧ evolves r r' ∧
        (tx_status r ≠ PENDING → r' = r).
Proof.
  intros Hin.
  destruct (reaches_row_evolves w (run ops w) r (run_reaches ops w) Hin)
    as (r' & Hin' & He).
  exists r'. split; [done|]. split; [done|].
  intros Hn. destruct He as (_ & _ & _ & _ & _ & _ & _ & [->|[Hp _]]); done.
Qed.

Lemma rows_are_kept_witness :
  let w := run [OpReserve 1 3 None None "api-request"] acme in
  In hold3 (ledger w) ∧
  ∃ r', In r' (ledger (run [OpCommit hold3; OpReverse hold3 "late";
                            OpTopUp 1 5 "gift"] w)) ∧
        evolves hold3 r' ∧ (tx_status hold3 ≠ PENDING → r' = hold3).
Proof.
  simpl. split; [by left|].
  apply (rows_are_kept (run [OpReserve 1 3 None None "api-request"] acme)
           [OpCommit hold3; OpReverse hold3 "late"; OpTopUp 1 5 "gift"] hold3).
  by left.
Defined.

(** ** One row per key *)

Definition keys_unique (w : World) : Prop :=
  ∀ wid k, (length (List.filter (key_is wid k) (ledger w)) ≤ 1)%nat.

Lemma key_is_mark wid k pk f l :
  (∀ x, wallet_id (f x) = wallet_id x ∧ idempotency_key (f x) = idempotency_key x) →
  length (List.filter (key_is wid k) (mark_rows pk f l))
  = length (List.filter (key_is wid k) l).
Proof.
  intros Hf. unfold mark_rows. rewrite filter_map_commute, length_map; [done|].
  intros x. destruct (pk_is pk x); [|done]. unfold key_is.
  by destruct (Hf x) as [-> ->].
Qed.

Lemma step_keys_unique w w' : step w w' → keys_unique w → keys_unique w'.
Proof.
  intros Hstep Hu wid k. specialize (Hu wid k).
  destruct Hstep as [w nid clk _|w k0 wl n key rid nt _ _ _ Hfresh|w r0 E Hs
                    |w r0 reason wl E Hs _|w k0 wl n nt _ _]; simpl.
  - done.
  - rewrite List.filter_app, length_app. simpl.
    unfold key_is at 2. simpl.
    destruct (Z.eqb_spec k0 wid) as [->|Hne]; simpl; [|lia].
    destruct key as [s|]; simpl; [|lia].
    destruct (decide (s = k)) as [->|Hsk].
    + rewrite bool_decide_eq_true_2 by done. simpl.
      destruct Hfresh as [_ Hnone]. rewrite Hnone. simpl. lia.
    + rewrite bool_decide_eq_false_2 by congruence. simpl. lia.
  - by rewrite key_is_mark.
  - rewrite List.filter_app, length_app, key_is_mark by done. simpl.
    unfold key_is at 2. simpl. rewrite andb_false_r. simpl. lia.
  - rewrite List.filter_app, length_app. simpl.
    unfold key_is at 2. simpl. rewrite andb_false_r. simpl. lia.
Qed.

Lemma reaches_keys_unique w w' : reaches w w' → keys_unique w → keys_unique w'.
Proof. induction 1; eauto using step_keys_unique. Qed.

(** X5. After any sequence of operations on a store in which no two rows of a
    wallet share an idempotency key, no two rows of a wallet share one:
    the services never write a second row for a key, whatever its state. *)
Theorem one_row_per_key (w : World) (ops : list Op) (wid : Z) (k : string) :
  keys_unique w →
  (length (List.filter (key_is wid k) (ledger (run ops w))) ≤ 1)%nat.
Proof.
  intros Hu. by apply (reaches_keys_unique w (run ops w) (run_reaches ops w)).
Qed.

Lemma one_row_per_key_witness :
  keys_unique acme ∧
  (length (List.filter (key_is 1 "k1")
             (ledger (run [OpReserve 1 3 (Some "k1") None "a";
                           OpReserve 1 2 (Some "k1") None "b";
                           OpReverse hold3 "late";
                           OpReserve 1 4 (Some "k1") None "c"] acme))) ≤ 1)%nat.
Proof.
  assert (H : keys_unique acme) by (intros wid k; simpl; lia).
  split; [exact H|].
  exact (one_row_per_key acme _ 1 "k1" H).
Defined.

(** ** Holds, spending and refunds *)

(** Every PENDING row is a debit of a positive amount. *)
Definition holds_are_debits (w : World) : Prop :=
  Forall (λ r, tx_status r = PENDING → tx_type r = DEBIT ∧ delta r < 0) (ledger w).

Lemma step_holds_are_debits w w' : step w w' → holds_are_debits w → holds_are_debits w'.
Proof.
  unfold holds_are_debits.
  destruct 1 as [w nid clk _|w wid wl n key rid nt _ Hn _ _|w r _ _
                |w r reason wl _ _ _|w wid wl n nt _ _]; simpl; intros H.
  - done.
  - apply Forall_app. split; [done|]. apply Forall_singleton. simpl.
    intros _. split; [done|lia].
  - apply Forall_mark_rows; [|done]. intros x _. simpl. congruence.
  - apply Forall_app. split.
    + apply Forall_mark_rows; [|done]. intros x _. simpl. congruence.
    + apply Forall_singleton. simpl. congruence.
  - apply Forall_app. split; [done|]. apply Forall_singleton. simpl. congruence.
Qed.

Lemma reaches_holds_are_debits w w' :
  reaches w w' → holds_are_debits w → holds_are_debits w'.
Proof. induction 1; eauto using step_holds_are_debits. Qed.

Lemma holds_are_debits_row w r pk :
  holds_are_debits w → List.filter (pk_is pk) (ledger w) = [r] →
  tx_status r = PENDING → tx_type r = DEBIT ∧ delta r < 0.
Proof.
  intros H E Hs. apply filter_singleton_elem in E as [Hin _].
  unfold holds_are_debits in H. rewrite List.Forall_forall in H. by apply H.
Qed.

(** X6. Only debits are ever PENDING: in a store reached by the services from
    one in which every PENDING row is a debit of a positive amount (an
    empty ledger, say), every PENDING row is one. *)
Theorem only_debits_are_pending (w : World) (ops : list Op) (r : CreditTransaction) :
  holds_are_debits w → In r (ledger (run ops w)) → tx_status r = PENDING →
  tx_type r = DEBIT ∧ delta r < 0.
Proof.
  intros H Hin Hs.
  pose proof (reaches_holds_are_debits _ _ (run_reaches ops w) H) as H'.
  unfold holds_are_debits in H'. rewrite List.Forall_forall in H'. by apply H'.
Qed.

Lemma only_debits_are_pending_witness :
  let ops := [OpReserve 1 3 None None "api-request"; OpTopUp 1 5 "gift";
              OpReserve 1 2 None None "api-request"; OpReverse hold3 "late"] in
  let r := mkCreditTransaction 3 1 (-2) DEBIT PENDING None None "api-request" 1000 in
  holds_are_debits acme ∧ In r (ledger (run ops acme)) ∧ tx_status r = PENDING ∧
  tx_type r = DEBIT ∧ delta r < 0.
Proof.
  simpl. assert (H : holds_are_debits acme) by constructor.
  split; [exact H|]. split; [vm_compute; tauto|]. split; [reflexivity|].
  apply (only_debits_are_pending acme
           [OpReserve 1 3 None None "api-request"; OpTopUp 1 5 "gift";
            OpReserve 1 2 None None "api-request"; OpReverse hold3 "late"]
           (mkCreditTransaction 3 1 (-2) DEBIT PENDING None None "api-request" 1000) H);
    [vm_compute; tauto|reflexivity].
Defined.

(** Sums over a ledger in which the one row of key [pk] is rewritten. *)
Lemma sum_mark_unique (q : CreditTransaction → bool) pk f l r :
  List.filter (pk_is pk) l = [r] →
  sumZ (map abs_delta (List.filter q (mark_rows pk f l)))
  = sumZ (map abs_delta (List.filter q l))
    - (if q r then abs_delta r else 0) + (if q (f r) then abs_delta (f r) else 0).
Proof.
  induction l as [|x l IH]; simpl; [done|].
  destruct (pk_is pk x) eqn:Hx.
  - intros [= -> E]. rewrite (mark_rows_none _ _ _ E).
    destruct (q (f r)), (q r); simpl; lia.
  - intros E. specialize (IH E). destruct (q x); simpl; lia.
Qed.

Lemma sum_abs_mark_unique wid (p : CreditTransaction → bool) pk f l r ns nid clk ws :
  List.filter (pk_is pk) l = [r] →
  sum_abs wid p (mkWorld ws (mark_rows pk f l ++ ns) nid clk)
  = sumZ (map abs_delta (List.filter (λ r, (wallet_id r =? wid) && p r) l))
    - (if (wallet_id r =? wid) && p r then abs_delta r else 0)
    + (if (wallet_id (f r) =? wid) && p (f r) then abs_delta (f r) else 0)
    + sumZ (map abs_delta (List.filter (λ r, (wallet_id r =? wid) && p r) ns)).
Proof.
  intros E. unfold sum_abs, rows_of. simpl. fold abs_delta.
  rewrite sum_filter_app, (sum_mark_unique _ _ _ _ r) by done. done.
Qed.

(** What the wallet could spend before anything was held or spent:
    balance, holds and final debits, less the top-ups. *)
Definition funded_quantity (w : World) (wid : Z) : Z :=
  balance_of w wid
  + sum_abs wid (is_row DEBIT PENDING) w
  + sum_abs wid (is_row DEBIT COMMITTED) w
  - sum_abs wid (has_type CREDIT) w.

(** Refunds written less debits reversed. *)
Definition refund_gap (w : World) (wid : Z) : Z :=
  sum_abs wid (has_type REFUND) w - sum_abs wid (is_row DEBIT REVERSED) w.

Lemma is_row_eval ty st r :
  is_row ty st r = bool_decide (tx_type r = ty) && bool_decide (tx_status r = st).
Proof. done. Qed.

Lemma step_funded_and_gap w w' wid :
  step w w' → holds_are_debits w →
  funded_quantity w' wid = funded_quantity w wid ∧
  refund_gap w' wid = refund_gap w wid.
Proof.
  destruct 1 as [w nid clk _|w k wl n key rid nt Hk Hn Hle _|w r E Hs
                |w r reason wl E Hs Hk|w k wl n nt Hk Hn]; intros Hp;
    unfold funded_quantity, refund_gap.
  - done.
  - unfold reserved_world. rewrite balance_of_insert, !sum_abs_app.
    rewrite !sum_abs_unfold. unfold balance_of. simpl.
    destruct (decide (k = wid)) as [->|Hne].
    + rewrite Hk, Z.eqb_refl. simpl. unfold abs_delta; simpl. lia.
    + destruct (Z.eqb_spec k wid); [done|]. simpl. lia.
  - unfold committed_world. rewrite <- (app_nil_r (mark_rows _ _ _)).
    rewrite !(sum_abs_mark_unique _ _ _ _ _ r) by done.
    rewrite !sum_abs_unfold. unfold balance_of, has_type. simpl.
    rewrite !is_row_eval. simpl. rewrite Hs. simpl.
    destruct (wallet_id r =? wid); simpl; [|lia].
    repeat case_bool_decide; simpl; unfold abs_delta; simpl; try lia; congruence.
  - destruct (holds_are_debits_row _ _ _ Hp E Hs) as [Hty Hd].
    unfold reversed_world. rewrite Hk, balance_of_insert.
    rewrite !(sum_abs_mark_unique _ _ _ _ _ r) by done.
    rewrite !sum_abs_unfold. unfold balance_of, has_type. simpl.
    rewrite !is_row_eval. simpl. rewrite Hs, Hty. simpl.
    destruct (decide (wallet_id r = wid)) as [Heq|Hne].
    + rewrite Heq in *. rewrite Hk, Z.eqb_refl. simpl. unfold abs_delta; simpl. lia.
    + destruct (Z.eqb_spec (wallet_id r) wid); [done|]. simpl. lia.
  - unfold topped_up_world. rewrite balance_of_insert, !sum_abs_app.
    rewrite !sum_abs_unfold. unfold balance_of. simpl.
    destruct (decide (k = wid)) as [->|Hne].
    + rewrite Hk, Z.eqb_refl. simpl. unfold abs_delta; simpl. lia.
    + destruct (Z.eqb_spec k wid); [done|]. simpl. lia.
Qed.

Lemma reaches_funded_and_gap w w' wid :
  reaches w w' → holds_are_debits w →
  funded_quantity w' wid = funded_quantity w wid ∧
  refund_gap w' wid = refund_gap w wid.
Proof.
  induction 1 as [|w1 w2 w3 H12 _ IH]; intros Hp; [done|].
  destruct IH as [-> ->]; [by eapply step_holds_are_debits|].
  by apply step_funded_and_gap.
Qed.

(** X7. With the refunds left out and the reversed debits too, the quantity of
    the specification is kept: balance + holds + final debits - top-ups
    is the same after any sequence of operations, on a store whose PENDING
    rows are debits of a positive amount; from an empty ledger it is the
    initial balance. *)
Theorem funded_quantity_invariant (w : World) (wid : Z) (ops : list Op) :
  holds_are_debits w →
  funded_quantity (run ops w) wid = funded_quantity w wid ∧
  (ledger w = [] → funded_quantity (run ops w) wid = balance_of w wid).
Proof.
  intros Hp.
  destruct (reaches_funded_and_gap w (run ops w) wid (run_reaches ops w) Hp) as [H _].
  split; [done|]. intros Hl. rewrite H.
  unfold funded_quantity, sum_abs, rows_of. rewrite Hl. simpl. lia.
Qed.

Lemma funded_quantity_invariant_witness :
  let ops := [OpReserve 1 3 None None "api-request"; OpReverse hold3 "exception";
              OpTopUp 1 5 "gift"; OpReserve 1 2 None None "api-request"] in
  holds_are_debits acme ∧
  funded_quantity (run ops acme) 1 = funded_quantity acme 1 ∧
  (ledger acme = [] → funded_quantity (run ops acme) 1 = balance_of acme 1).
Proof.
  cbv zeta. assert (H : holds_are_debits acme) by constructor.
  split; [exact H|]. exact (funded_quantity_invariant acme 1 _ H).
Defined.

(** X8. Every reversal is paid back and nothing else is: the refunds of a
    wallet and its reversed debits grow together, so that from an empty
    ledger the sum of the REFUND rows is the sum of the REVERSED DEBIT
    rows, after any sequence of operations. *)
Theorem refunds_match_reversals (w : World) (wid : Z) (ops : list Op) :
  holds_are_debits w →
  refund_gap (run ops w) wid = refund_gap w wid ∧
  (ledger w = [] →
   sum_abs wid (has_type REFUND) (run ops w)
   = sum_abs wid (is_row DEBIT REVERSED) (run ops w)).
Proof.
  intros Hp.
  destruct (reaches_funded_and_gap w (run ops w) wid (run_reaches ops w) Hp) as [_ H].
  split; [done|]. intros Hl. unfold refund_gap in H.
  assert (sum_abs wid (has_type REFUND) w = 0 ∧
          sum_abs wid (is_row DEBIT REVERSED) w = 0) as [H1 H2].
  { unfold sum_abs, rows_of. by rewrite Hl. }
  lia.
Qed.

Lemma refunds_match_reversals_witness :
  let ops := [OpReserve 1 3 None None "api-request"; OpReverse hold3 "exception";
              OpReserve 1 2 None None "api-request"; OpTick 400000000;
              OpSweep 3 (mkSettings None) None (Some 500)] in
  holds_are_debits acme ∧
  refund_gap (run ops acme) 1 = refund_gap acme 1 ∧
  (ledger acme = [] →
   sum_abs 1 (has_type REFUND) (run ops acme)
   = sum_abs 1 (is_row DEBIT REVERSED) (run ops acme)).
Proof.
  cbv zeta. assert (H : holds_are_debits acme) by constructor.
  split; [exact H|]. exact (refunds_match_reversals acme 1 _ H).
Defined.

(** ** Reserving until the wallet is empty *)

Lemma run_cons o ops w : run (o :: ops) w = run ops (exec_op o w).
Proof. done. Qed.

Lemma no_hit_without_key wid w : no_hit wid None w.
Proof. done. Qed.

(** X9. [k] reservations of [amount] without a key, one after the other, on a
    wallet that holds [b] credits: the first [b / amount] go through (all
    of them when [k] is smaller), the others bounce; no more than the
    balance is ever taken and one row is written per reservation that
    went through. *)
Theorem reserve_until_empty (k : nat) (w : World) (wid amount : Z) (wl : Wallet)
    (rid : option string) (nt : string) :
  wallets w !! wid = Some wl → 0 ≤ balance wl → 0 < amount →
  let taken := Z.min (Z.of_nat k) (balance wl / amount) in
  let w' := run (repeat (OpReserve wid amount None rid nt) k) w in
  balance_of w' wid = balance wl - amount * taken ∧
  0 ≤ balance_of w' wid ∧
  length (ledger w') = (length (ledger w) + Z.to_nat taken)%nat.
Proof.
  revert w wl. induction k as [|k IH]; intros w wl Hw Hb Ha; cbv zeta.
  - simpl. rewrite (balance_of_lookup _ _ _ Hw).
    assert (0 ≤ balance wl / amount) by (apply Z.div_pos; lia).
    rewrite Z.min_l by lia. simpl. split; [lia|]. split; [lia|]. lia.
  - cbn [repeat]. rewrite run_cons. cbn [exec_op].
    rewrite reserve_credits_no_hit by done.
    destruct (Z.le_gt_cases amount (balance wl)) as [Hle|Hgt].
    + rewrite (reserve_fresh_paid _ _ _ _ _ _ wl) by done. cbn [snd].
      specialize (IH (reserved_world wid amount (truthy None) rid nt wl w)
                     (with_balance (balance wl - amount) wl)).
      destruct IH as (IH1 & IH2 & IH3);
        [simpl; apply lookup_insert_eq|simpl; lia|done|].
      cbn [balance with_balance] in IH1, IH3.
      assert (Hq : (balance wl - amount) / amount = balance wl / amount - 1).
      { replace (balance wl - amount) with (balance wl + (-1) * amount) by lia.
        rewrite Z.div_add by lia. lia. }
      assert (Hq1 : 1 ≤ balance wl / amount).
      { apply Z.div_le_lower_bound; lia. }
      rewrite Hq in IH1, IH3.
      assert (Hmin : Z.min (Z.of_nat (S k)) (balance wl / amount)
                     = 1 + Z.min (Z.of_nat k) (balance wl / amount - 1)) by lia.
      rewrite Hmin. split; [rewrite IH1; lia|]. split; [done|].
      rewrite IH3. unfold reserved_world. cbn [ledger]. rewrite length_app. simpl.
      assert (0 ≤ Z.min (Z.of_nat k) (balance wl / amount - 1)) by lia.
      lia.
    + rewrite (reserve_fresh_bounced _ _ _ _ _ _ wl) by done. cbn [snd].
      specialize (IH (seq_advanced w) wl).
      destruct IH as (IH1 & IH2 & IH3); [done..|].
      assert (Hq : balance wl / amount = 0) by (apply Z.div_small; lia).
      rewrite Hq in *. rewrite Z.min_r in * by lia.
      split; [rewrite IH1; lia|]. split; [done|]. rewrite IH3. done.
Qed.

Lemma reserve_until_empty_witness :
  wallets acme !! 1 = Some (mkWallet "acme" 10 0) ∧ 0 ≤ 10 ∧ 0 < 3 ∧
  let taken := Z.min (Z.of_nat 5) (10 / 3) in
  let w' := run (repeat (OpReserve 1 3 None None "api-request") 5) acme in
  balance_of w' 1 = 10 - 3 * taken ∧
  0 ≤ balance_of w' 1 ∧
  length (ledger w') = (length (ledger acme) + Z.to_nat taken)%nat.
Proof.
  split; [reflexivity|]. split; [lia|]. split; [lia|].
  apply (reserve_until_empty 5 acme 1 3 (mkWallet "acme" 10 0) None "api-request").
  - reflexivity.
  - simpl. lia.
  - lia.
Defined.

(** ** What a sweep gives back *)

Definition rows_sum (wid : Z) (p : CreditTransaction → bool)
    (l : list CreditTransaction) : Z :=
  sumZ (map abs_delta (List.filter (λ r, (wallet_id r =? wid) && p r) l)).

Definition funded_rows (wid : Z) (l : list CreditTransaction) : Z :=
  rows_sum wid (is_row DEBIT PENDING) l + rows_sum wid (is_row DEBIT COMMITTED) l
  - rows_sum wid (has_type CREDIT) l.

Lemma funded_quantity_rows w wid :
  funded_quantity w wid = balance_of w wid + funded_rows wid (ledger w).
Proof. unfold funded_quantity, funded_rows, rows_sum. rewrite !sum_abs_unfold. lia. Qed.

Lemma funded_rows_app wid l1 l2 :
  funded_rows wid (l1 ++ l2) = funded_rows wid l1 + funded_rows wid l2.
Proof. unfold funded_rows, rows_sum. rewrite !sum_filter_app. lia. Qed.

Lemma funded_rows_cons wid x l :
  funded_rows wid (x :: l) = funded_rows wid [x] + funded_rows wid l.
Proof. apply (funded_rows_app wid [x] l). Qed.

Lemma rows_sum_cons wid p x l :
  rows_sum wid p (x :: l) = rows_sum wid p [x] + rows_sum wid p l.
Proof. unfold rows_sum. apply (sum_filter_app _ [x] l). Qed.

Lemma funded_rows_refunds wid R : Forall is_refund R → funded_rows wid R = 0.
Proof.
  induction 1 as [|x R [Hty Hst] _ IH]; [done|].
  rewrite funded_rows_cons, IH. unfold funded_rows, rows_sum. simpl.
  rewrite !is_row_eval. unfold has_type. rewrite Hty, Hst. simpl.
  rewrite andb_false_r. simpl. lia.
Qed.

Lemma funded_rows_swept wid cutoff l :
  Forall (λ r, tx_status r = PENDING → tx_type r = DEBIT ∧ delta r < 0) l →
  funded_rows wid (map (λ r, if stale cutoff r then expire r else r) l)
  = funded_rows wid l - rows_sum wid (stale cutoff) l.
Proof.
  induction 1 as [|x l Hx _ IH]; [done|].
  cbn [map]. rewrite (funded_rows_cons wid x), (rows_sum_cons wid _ x), funded_rows_cons, IH.
  assert (funded_rows wid [if stale cutoff x then expire x else x]
          = funded_rows wid [x] - rows_sum wid (stale cutoff) [x]); [|lia].
  unfold funded_rows, rows_sum. simpl. destruct (stale cutoff x) eqn:Hs.
  - destruct (Hx (stale_pending _ _ Hs)) as [Hty Hd].
    rewrite !is_row_eval. unfold has_type. simpl.
    rewrite (stale_pending _ _ Hs), Hty. simpl.
    destruct (wallet_id x =? wid); simpl; unfold abs_delta; simpl; lia.
  - rewrite andb_false_r. simpl. lia.
Qed.

(** X10. A sweep that runs to its end gives every wallet back what its stale
    holds had taken: the balance after is the balance before plus the sum
    of |delta| over the stale rows of the wallet. *)
Theorem sweep_gives_back_holds (fuel : nat) (settings : Settings)
    (now chunk_size : option Z) (w : World) (wid : Z) :
  let cutoff := default (clock w) now
                - timedelta_seconds (default 300 (CREDIT_RESERVATION_TTL settings)) in
  NoDup (map tx_id (ledger w)) → seq_ahead w → wallets_exist w →
  holds_are_debits w → chunk_ok chunk_size →
  (count_stale cutoff (ledger w) < fuel)%nat →
  balance_of (snd (sweep_stale_reservations fuel settings now chunk_size w)) wid
  = balance_of w wid + sum_abs wid (stale cutoff) w.
Proof.
  intros cutoff Hnd Hseq Hfk Hd Hc Hfuel.
  pose proof (sweep_loop_reaches fuel cutoff chunk_size 0%nat w) as Hreach.
  destruct (sweep_loop_run cutoff chunk_size (ledger w) Hc fuel 0%nat 0%nat w)
    as (w' & Hrun & ((l1 & R & Hl & H2 & HR & Hk) & _) & Hz);
    [by apply sweep_inv_start|done|].
  unfold sweep_stale_reservations. fold cutoff. rewrite Hrun in *. cbn [snd] in *.
  assert (Hl1 : l1 = map (λ r, if stale cutoff r then expire r else r) (ledger w)).
  { apply kept_or_expired_done; [done|].
    unfold count_stale in Hz. rewrite Hl, List.filter_app, length_app in Hz.
    apply length_zero_iff_nil. lia. }
  destruct (reaches_funded_and_gap w w' wid Hreach Hd) as [Hq _].
  rewrite !funded_quantity_rows, Hl, Hl1, funded_rows_app in Hq.
  rewrite (funded_rows_swept wid cutoff (ledger w) Hd),
    (funded_rows_refunds wid R HR) in Hq.
  rewrite sum_abs_unfold. fold (rows_sum wid (stale cutoff) (ledger w)). lia.
Qed.

Lemma sweep_gives_back_holds_witness :
  NoDup (map tx_id (ledger acme_two_holds)) ∧ seq_ahead acme_two_holds ∧
  wallets_exist acme_two_holds ∧ holds_are_debits acme_two_holds ∧
  chunk_ok (Some 500) ∧ (count_stale 2000 (ledger acme_two_holds) < 2)%nat ∧
  balance_of (snd (sweep_stale_reservations 2 (mkSettings None) None (Some 500)
                     acme_two_holds)) 1
  = balance_of acme_two_holds 1 + sum_abs 1 (stale 2000) acme_two_holds.
Proof.
  assert (H1 : NoDup (map tx_id (ledger acme_two_holds))) by compute_done.
  assert (H2 : seq_ahead acme_two_holds) by (repeat constructor).
  assert (H3 : wallets_exist acme_two_holds)
    by (repeat constructor; eexists; reflexivity).
  assert (H4 : holds_are_debits acme_two_holds)
    by (repeat constructor; simpl; lia).
  assert (H5 : chunk_ok (Some 500)) by (simpl; lia).
  assert (H6 : (count_stale 2000 (ledger acme_two_holds) < 2)%nat)
    by (vm_compute; lia).
  split; [exact H1|]. split; [exact H2|]. split; [exact H3|]. split; [exact H4|].
  split; [exact H5|]. split; [exact H6|].
  exact (sweep_gives_back_holds 2 (mkSettings None) None (Some 500) acme_two_holds 1
           H1 H2 H3 H4 H5 H6).
Defined.

(** ** Sweeps that find nothing *)

Definition chunk_nonneg (chunk_size : option Z) : Prop :=
  match chunk_size with
  | Some c => 0 ≤ c
  | None => True
  end.

Lemma select_stale_nonneg cutoff chunk_size st :
  chunk_nonneg chunk_size →
  select_stale cutoff chunk_size st
  = (Returned (batch_of cutoff chunk_size (ledger (world st))), st).
Proof.
  intros Hc. unfold select_stale, bind, get_world, slice_to, batch_of.
  destruct chunk_size as [c|]; [|done]. simpl in Hc.
  by destruct (Z.ltb_spec c 0); [lia|].
Qed.

Lemma sweep_batch_empty cutoff chunk_size w :
  chunk_nonneg chunk_size → batch_of cutoff chunk_size (ledger w) = [] →
  sweep_batch cutoff chunk_size w = (Returned None, w).
Proof.
  intros Hc Hb. unfold sweep_batch, atomic. unfold bind at 1.
  rewrite select_stale_nonneg by done. cbn [world]. rewrite Hb. simpl.
  by destruct w.
Qed.

Lemma batch_of_nothing cutoff chunk_size l :
  chunk_size = Some 0 ∨ count_stale cutoff l = 0%nat →
  batch_of cutoff chunk_size l = [].
Proof.
  intros [->|Hz]; [done|].
  apply length_zero_iff_nil in Hz. unfold batch_of. rewrite Hz.
  by destruct chunk_size as [c|]; [destruct (Z.to_nat c)|].
Qed.

(** X11. A sweep with a chunk size of zero, or one that finds no PENDING row
    older than the cutoff, returns 0 and leaves the whole store as it was;
    so a chunk size of zero never reverses anything, however stale. *)
Theorem sweep_nothing_to_do (fuel : nat) (settings : Settings)
    (now chunk_size : option Z) (w : World) :
  let cutoff := default (clock w) now
                - timedelta_seconds (default 300 (CREDIT_RESERVATION_TTL settings)) in
  chunk_nonneg chunk_size →
  chunk_size = Some 0 ∨ count_stale cutoff (ledger w) = 0%nat →
  sweep_stale_reservations (S fuel) settings now chunk_size w
  = (Some (Returned 0%nat), w).
Proof.
  intros cutoff Hc Hn. unfold sweep_stale_reservations. fold cutoff. simpl.
  rewrite sweep_batch_empty; [done|done|]. by apply batch_of_nothing.
Qed.

Lemma sweep_nothing_to_do_witness :
  chunk_nonneg (Some 0) ∧
  (Some 0 = Some 0 ∨ count_stale 2000 (ledger acme_two_holds) = 0%nat) ∧
  sweep_stale_reservations 1 (mkSettings None) None (Some 0) acme_two_holds
  = (Some (Returned 0%nat), acme_two_holds).
Proof.
  split; [simpl; lia|]. split; [by left|].
  apply (sweep_nothing_to_do 0 (mkSettings None) None (Some 0) acme_two_holds).
  - simpl. lia.
  - by left.
Defined.

(** X12. A negative chunk size is refused by the queryset slice: the sweep
    raises at once and nothing is changed. *)
Theorem sweep_negative_chunk (fuel : nat) (settings : Settings) (now : option Z)
    (c : Z) (w : World) :
  c < 0 →
  sweep_stale_reservations (S fuel) settings now (Some c) w
  = (Some (Raised NegativeIndexing), w).
Proof.
  intros Hc. unfold sweep_stale_reservations. simpl.
  unfold sweep_batch, atomic, select_stale, slice_to, bind, get_world, raise.
  destruct (Z.ltb_spec c 0); [|lia]. simpl. by rewrite rollback_same.
Qed.

Lemma sweep_negative_chunk_witness :
  -1 < 0 ∧
  sweep_stale_reservations 3 (mkSettings None) None (Some (-1)) acme_two_holds
  = (Some (Raised NegativeIndexing), acme_two_holds).
Proof.
  split; [lia|].
  apply (sweep_negative_chunk 2 (mkSettings None) None (-1) acme_two_holds). lia.
Defined.

(** X13. Sweeping again with the same [now] finds nothing: after a sweep that
    ran to its end, a second one returns 0 and leaves the store as the
    first left it. *)
Theorem sweep_twice_is_sweep_once (fuel fuel2 : nat) (settings : Settings)
    (t : Z) (chunk_size chunk_size2 : option Z) (w : World) :
  let cutoff := t - timedelta_seconds (default 300 (CREDIT_RESERVATION_TTL settings)) in
  NoDup (map tx_id (ledger w)) → seq_ahead w → wallets_exist w →
  chunk_ok chunk_size → (count_stale cutoff (ledger w) < fuel)%nat →
  chunk_nonneg chunk_size2 →
  let w1 := snd (sweep_stale_reservations fuel settings (Some t) chunk_size w) in
  sweep_stale_reservations (S fuel2) settings (Some t) chunk_size2 w1
  = (Some (Returned 0%nat), w1).
Proof.
  intros cutoff Hnd Hseq Hfk Hc Hfuel Hc2 w1.
  destruct (sweep_loop_run cutoff chunk_size (ledger w) Hc fuel 0%nat 0%nat w)
    as (w' & Hrun & _ & Hz); [by apply sweep_inv_start|done|].
  assert (Hw1 : w1 = w').
  { unfold w1, sweep_stale_reservations. simpl. fold cutoff. by rewrite Hrun. }
  rewrite Hw1. unfold sweep_stale_reservations. simpl. fold cutoff.
  rewrite sweep_batch_empty; [done|done|]. apply batch_of_nothing. by right.
Qed.

Lemma sweep_twice_is_sweep_once_witness :
  NoDup (map tx_id (ledger acme_two_holds)) ∧ seq_ahead acme_two_holds ∧
  wallets_exist acme_two_holds ∧ chunk_ok (Some 1) ∧
  (count_stale 2000 (ledger acme_two_holds) < 2)%nat ∧ chunk_nonneg None ∧
  let w1 := snd (sweep_stale_reservations 2 (mkSettings None) (Some 300002000)
                   (Some 1) acme_two_holds) in
  sweep_stale_reservations 1 (mkSettings None) (Some 300002000) None w1
  = (Some (Returned 0%nat), w1).
Proof.
  assert (H1 : NoDup (map tx_id (ledger acme_two_holds))) by compute_done.
  assert (H2 : seq_ahead acme_two_holds) by (repeat constructor).
  assert (H3 : wallets_exist acme_two_holds)
    by (repeat constructor; eexists; reflexivity).
  assert (H4 : chunk_ok (Some 1)) by (simpl; lia).
  assert (H5 : (count_stale 2000 (ledger acme_two_holds) < 2)%nat)
    by (vm_compute; lia).
  split; [exact H1|]. split; [exact H2|]. split; [exact H3|]. split; [exact H4|].
  split; [exact H5|]. split; [exact I|].
  exact (sweep_twice_is_sweep_once 2 0 (mkSettings None) 300002000 (Some 1) None
           acme_two_holds H1 H2 H3 H4 H5 I).
Defined.

(** * Further properties of the charge wrapper *)

(** ** A hold and its end *)

Lemma mark_rows_appended w row f :
  seq_ahead w → tx_id row = next_id w →
  mark_rows (tx_id row) f (ledger w ++ [row]) = ledger w ++ [f row].
Proof.
  intros Hs Hid. unfold mark_rows. rewrite List.map_app. simpl.
  unfold pk_is at 2. rewrite Z.eqb_refl. f_equal.
  rewrite <- (map_id (ledger w)) at 2. apply map_ext_in. intros x Hx.
  unfold pk_is. destruct (Z.eqb_spec (tx_id x) (tx_id row)) as [Heq|]; [|done].
  unfold seq_ahead in Hs. rewrite List.Forall_forall in Hs.
  specialize (Hs _ Hx). simpl in Hs. lia.
Qed.

Lemma commit_held_run w wid amount key rid nt wl :
  seq_ahead w →
  let held := new_debit wid amount key rid nt w in
  commit_reservation held (reserved_world wid amount key rid nt wl w)
  = (Returned (with_tx_status COMMITTED held),
     mkWorld (<[wid := with_balance (balance wl - amount) wl]> (wallets w))
       (ledger w ++ [with_tx_status COMMITTED held]) (next_id w + 1) (clock w)).
Proof.
  intros Hs held. rewrite commit_reservation_run.
  unfold reserved_world at 1. cbn [ledger]. fold held.
  rewrite (filter_pk_appended w held) by done. simpl.
  unfold committed_world, reserved_world. simpl. fold held.
  by rewrite (mark_rows_appended w held) by done.
Qed.

Lemma reverse_held_run w wid amount key rid nt wl reason :
  seq_ahead w → wallets w !! wid = Some wl →
  let held := new_debit wid amount key rid nt w in
  reverse_reservation held reason (reserved_world wid amount key rid nt wl w)
  = (Returned (with_note reason (with_tx_status REVERSED held)),
     mkWorld (wallets w)
       (ledger w ++ [with_note reason (with_tx_status REVERSED held);
                     mkCreditTransaction (next_id w + 1) wid amount REFUND COMMITTED
                       None None (refund_note held reason) (clock w)])
       (next_id w + 2) (clock w)).
Proof.
  intros Hs Hw held. rewrite reverse_reservation_run.
  unfold reserved_world at 1. cbn [ledger]. fold held.
  rewrite (filter_pk_appended w held) by done. simpl.
  rewrite lookup_insert_eq. unfold reversed_world, reserved_world. simpl. fold held.
  rewrite lookup_insert_eq. simpl. rewrite insert_insert_eq.
  rewrite (mark_rows_appended w held) by done. rewrite <- app_assoc. simpl.
  f_equal. f_equal.
  - replace (balance wl - amount + - - amount) with (balance wl) by lia.
    unfold with_balance at 1. simpl. fold (with_balance (balance wl) wl).
    rewrite with_balance_same. by apply insert_id.
  - by rewrite Z.opp_involutive.
  - lia.
Qed.

(** ** The three ways out *)

(** X14. A request whose wallet cannot pay one credit is answered 402: the view
    is never called, no commit or reverse is made, and both tables are as
    they were. *)
Theorem wrapped_insufficient_credits
    (get_wallet : HttpRequest → option Z) (view_func : HttpRequest → Prog HttpResponse)
    (uuid4 : string) (request : HttpRequest) (w : World) (cs : list Call)
    (wid : Z) (wl : Wallet) :
  get_wallet request = Some wid →
  wallets w !! wid = Some wl → balance wl < 1 →
  no_hit wid (headers request !! "Idempotency-Key") w →
  ∃ w',
    _wrapped get_wallet view_func uuid4 request (mkSession w cs)
    = (Returned (JsonResponse "Insufficient credits" 402),
       mkSession w' (cs ++ [reserve_call wid request uuid4])) ∧
    wallets w' = wallets w ∧ ledger w' = ledger w.
Proof.
  intros Hg Hw Hb Hn. exists (seq_advanced w).
  unfold _wrapped. rewrite Hg.
  unfold bind, try_except, invoke, ret. simpl.
  rewrite reserve_credits_no_hit by (done || lia).
  rewrite (reserve_fresh_bounced _ _ _ _ _ _ wl) by done. done.
Qed.

Lemma wrapped_insufficient_credits_witness :
  let broke := mkWorld {[ 1 := mkWallet "acme" 0 0 ]} [] 1 1000 in
  default_get_wallet keyed_request = Some 1 ∧
  wallets broke !! 1 = Some (mkWallet "acme" 0 0) ∧ 0 < 1 ∧
  no_hit 1 (headers keyed_request !! "Idempotency-Key") broke ∧
  ∃ w',
    _wrapped default_get_wallet echo "u-1" keyed_request (mkSession broke [])
    = (Returned (JsonResponse "Insufficient credits" 402),
       mkSession w' ([] ++ [reserve_call 1 keyed_request "u-1"])) ∧
    wallets w' = wallets broke ∧ ledger w' = ledger broke.
Proof.
  cbv zeta. split; [reflexivity|]. split; [reflexivity|]. split; [lia|].
  split; [reflexivity|].
  apply (wrapped_insufficient_credits default_get_wallet echo "u-1" keyed_request
           (mkWorld {[ 1 := mkWallet "acme" 0 0 ]} [] 1 1000) [] 1
           (mkWallet "acme" 0 0));
    [reflexivity|reflexivity|simpl; lia|reflexivity].
Defined.

(** X15. A request served with a status in [200, 400) costs one credit: with a
    wallet that can pay, a key that no row carries and a view that leaves
    the store alone, the wrapper returns the response of the view, the
    balance is one lower and the ledger has one more row, a DEBIT of -1,
    COMMITTED, carrying the key and the request id. *)
Theorem wrapped_success_charges_one
    (get_wallet : HttpRequest → option Z) (view_func : HttpRequest → Prog HttpResponse)
    (uuid4 : string) (request : HttpRequest) (w : World) (cs : list Call)
    (wid : Z) (wl : Wallet) (response : HttpResponse) :
  let idem := headers request !! "Idempotency-Key" in
  let held := new_debit wid 1 (truthy idem) (Some uuid4) "api-request" w in
  get_wallet request = Some wid →
  wallets w !! wid = Some wl → 1 ≤ balance wl → no_hit wid idem w → seq_ahead w →
  view_func request (reserved_world wid 1 (truthy idem) (Some uuid4) "api-request" wl w)
  = (Returned response,
     reserved_world wid 1 (truthy idem) (Some uuid4) "api-request" wl w) →
  200 ≤ status_of response < 400 →
  _wrapped get_wallet view_func uuid4 request (mkSession w cs)
  = (Returned response,
     mkSession
       (mkWorld (<[wid := with_balance (balance wl - 1) wl]> (wallets w))
          (ledger w ++ [with_tx_status COMMITTED held]) (next_id w + 1) (clock w))
       (cs ++ [reserve_call wid request uuid4; CallView; CallCommit held])).
Proof.
  intros idem held Hg Hw Hb Hn Hs Hv Hst.
  rewrite (_wrapped_after_view _ _ _ _ _ _ wid held _ _ _ Hg
             ltac:(rewrite reserve_credits_no_hit by (done || lia);
                   by apply reserve_fresh_paid) Hv).
  apply success_of_spec in Hst. rewrite Hst. cbn [terminal_call exit_call].
  unfold held. by rewrite commit_held_run.
Qed.

(** X16. A request that is not served costs nothing: when the view answers with
    a status outside [200, 400), or raises an [Exception], the wallet
    table is as it was before the request and the ledger has two more
    rows, the DEBIT, REVERSED with the reason, and its REFUND of +1. *)
Theorem wrapped_failure_charges_nothing
    (get_wallet : HttpRequest → option Z) (view_func : HttpRequest → Prog HttpResponse)
    (uuid4 : string) (request : HttpRequest) (w : World) (cs : list Call)
    (wid : Z) (wl : Wallet) (o : Outcome HttpResponse) :
  let idem := headers request !! "Idempotency-Key" in
  let held := new_debit wid 1 (truthy idem) (Some uuid4) "api-request" w in
  let reason :=
    match o with
    | Returned response => "http " +:+ pretty (status_of response)
    | Raised _ => "exception"
    end in
  get_wallet request = Some wid →
  wallets w !! wid = Some wl → 1 ≤ balance wl → no_hit wid idem w → seq_ahead w →
  view_func request (reserved_world wid 1 (truthy idem) (Some uuid4) "api-request" wl w)
  = (o, reserved_world wid 1 (truthy idem) (Some uuid4) "api-request" wl w) →
  match o with
  | Returned response => ¬ (200 ≤ status_of response < 400)
  | Raised e => is_Exception e = true
  end →
  _wrapped get_wallet view_func uuid4 request (mkSession w cs)
  = (o,
     mkSession
       (mkWorld (wallets w)
          (ledger w ++ [with_note reason (with_tx_status REVERSED held);
                        mkCreditTransaction (next_id w + 1) wid 1 REFUND COMMITTED
                          None None (refund_note held reason) (clock w)])
          (next_id w + 2) (clock w))
       (cs ++ [reserve_call wid request uuid4; CallView; CallReverse held reason])).
Proof.
  intros idem held reason Hg Hw Hb Hn Hs Hv Ho.
  rewrite (_wrapped_after_view _ _ _ _ _ _ wid held _ _ _ Hg
             ltac:(rewrite reserve_credits_no_hit by (done || lia);
                   by apply reserve_fresh_paid) Hv).
  destruct o as [response|e].
  - rewrite <- success_of_spec in Ho. apply not_true_is_false in Ho. rewrite Ho.
    cbn [terminal_call exit_call]. unfold held. by rewrite reverse_held_run.
  - rewrite Ho. cbn [terminal_call]. unfold held. by rewrite reverse_held_run.
Qed.

Lemma wrapped_success_charges_one_witness :
  let ok := mkHttpResponse (Some 200) [("message", "Service did its job!")] in
  default_get_wallet keyed_request = Some 1 ∧
  wallets acme !! 1 = Some (mkWallet "acme" 10 0) ∧ 1 ≤ 10 ∧
  no_hit 1 (headers keyed_request !! "Idempotency-Key") acme ∧ seq_ahead acme ∧
  200 ≤ status_of ok < 400 ∧
  _wrapped default_get_wallet echo "u-1" keyed_request (mkSession acme [])
  = (Returned ok,
     mkSession
       (mkWorld (<[1 := with_balance (10 - 1) (mkWallet "acme" 10 0)]> (wallets acme))
          (ledger acme
           ++ [with_tx_status COMMITTED
                 (new_debit 1 1 (truthy (headers keyed_request !! "Idempotency-Key"))
                    (Some "u-1") "api-request" acme)])
          (next_id acme + 1) (clock acme))
       ([] ++ [reserve_call 1 keyed_request "u-1"; CallView;
               CallCommit
                 (new_debit 1 1 (truthy (headers keyed_request !! "Idempotency-Key"))
                    (Some "u-1") "api-request" acme)])).
Proof.
  cbv zeta. split; [reflexivity|]. split; [reflexivity|]. split; [lia|].
  split; [reflexivity|]. split; [constructor|].
  split; [unfold status_of; simpl; lia|].
  apply (wrapped_success_charges_one default_get_wallet echo "u-1" keyed_request
           acme [] 1 (mkWallet "acme" 10 0)
           (mkHttpResponse (Some 200) [("message", "Service did its job!")]));
    [reflexivity|reflexivity|simpl; lia|reflexivity|constructor|reflexivity
    |unfold status_of; simpl; lia].
Defined.

Lemma wrapped_failure_charges_nothing_witness :
  let held := new_debit 1 1 (truthy (headers keyed_request !! "Idempotency-Key"))
                (Some "u-1") "api-request" acme in
  (default_get_wallet keyed_request = Some 1 ∧
   wallets acme !! 1 = Some (mkWallet "acme" 10 0) ∧ 1 ≤ 10 ∧
   no_hit 1 (headers keyed_request !! "Idempotency-Key") acme ∧ seq_ahead acme) ∧
  (¬ (200 ≤ status_of (mkHttpResponse (Some 404) []) < 400) ∧
   _wrapped default_get_wallet not_found "u-1" keyed_request (mkSession acme [])
   = (Returned (mkHttpResponse (Some 404) []),
      mkSession
        (mkWorld (wallets acme)
           (ledger acme
            ++ [with_note ("http " +:+ pretty (status_of (mkHttpResponse (Some 404) [])))
                  (with_tx_status REVERSED held);
                mkCreditTransaction (next_id acme + 1) 1 1 REFUND COMMITTED None None
                  (refund_note held
                     ("http " +:+ pretty (status_of (mkHttpResponse (Some 404) []))))
                  (clock acme)])
           (next_id acme + 2) (clock acme))
        ([] ++ [reserve_call 1 keyed_request "u-1"; CallView;
                CallReverse held
                  ("http " +:+ pretty (status_of (mkHttpResponse (Some 404) [])))]))) ∧
  (is_Exception (ViewException "RuntimeError") = true ∧
   _wrapped default_get_wallet crashing "u-1" keyed_request (mkSession acme [])
   = (Raised (ViewException "RuntimeError"),
      mkSession
        (mkWorld (wallets acme)
           (ledger acme
            ++ [with_note "exception" (with_tx_status REVERSED held);
                mkCreditTransaction (next_id acme + 1) 1 1 REFUND COMMITTED None None
                  (refund_note held "exception") (clock acme)])
           (next_id acme + 2) (clock acme))
        ([] ++ [reserve_call 1 keyed_request "u-1"; CallView;
                CallReverse held "exception"]))).
Proof.
  cbv zeta.
  assert (Hseq : seq_ahead acme) by constructor.
  split; [|split].
  - split; [reflexivity|]. split; [reflexivity|]. split; [lia|].
    split; [reflexivity|exact Hseq].
  - split; [unfold status_of; simpl; lia|].
    apply (wrapped_failure_charges_nothing default_get_wallet not_found "u-1"
             keyed_request acme [] 1 (mkWallet "acme" 10 0)
             (Returned (mkHttpResponse (Some 404) [])));
      [reflexivity|reflexivity|simpl; lia|reflexivity|exact Hseq|reflexivity
      |unfold status_of; simpl; lia].
  - split; [reflexivity|].
    apply (wrapped_failure_charges_nothing default_get_wallet crashing "u-1"
             keyed_request acme [] 1 (mkWallet "acme" 10 0)
             (Raised (ViewException "RuntimeError")));
      [reflexivity|reflexivity|simpl; lia|reflexivity|exact Hseq|reflexivity
      |reflexivity].
Defined.

(** ** A key that was used before *)

(** X17. A request whose key already has a settled row is served without any
    charge or refund: the reservation is the old row, the view runs, the
    commit or reverse that follows changes nothing, and the store is left
    as the view left it. So a retry after a reversed request is served for
    free, and a retry after a committed one is never charged or refunded
    again. *)
Theorem wrapped_settled_key_is_free
    (get_wallet : HttpRequest → option Z) (view_func : HttpRequest → Prog HttpResponse)
    (uuid4 : string) (request : HttpRequest) (w : World) (cs : list Call)
    (wid : Z) (k : string) (r r2 : CreditTransaction)
    (o : Outcome HttpResponse) (w2 : World) :
  get_wallet request = Some wid →
  truthy (headers request !! "Idempotency-Key") = Some k →
  List.filter (key_is wid k) (ledger w) = [r] →
  view_func request w = (o, w2) →
  List.filter (pk_is (tx_id r)) (ledger w2) = [r2] → tx_status r2 ≠ PENDING →
  (∀ e, o = Raised e → is_Exception e = true) →
  ∃ log,
    _wrapped get_wallet view_func uuid4 request (mkSession w cs)
    = (o, mkSession w2 (cs ++ log)) ∧
    length (exits log) = 1%nat.
Proof.
  intros Hg Hk Hr Hv Hrow Hset He.
  assert (Hres : ReserveCreditsService wid 1 (headers request !! "Idempotency-Key")
                   (Some uuid4) "api-request" w = (Returned r, w)).
  { rewrite reserve_credits_run. simpl. by rewrite Hk, Hr. }
  assert (Hcall : ∀ c, terminal_call c r w2 = (Returned r2, w2)).
  { intros c. destruct c as [|reason]; simpl;
      [rewrite commit_reservation_run|rewrite reverse_reservation_run];
      rewrite Hrow; by rewrite bool_decide_eq_false_2. }
  rewrite (_wrapped_after_view _ _ _ _ _ _ _ _ _ _ _ Hg Hres Hv).
  destruct o as [response|e].
  - cbv zeta. rewrite Hcall. eexists. split; [done|].
    by destruct (success_of response).
  - rewrite (He e) by done. rewrite Hcall. eexists. split; [done|]. done.
Qed.

Lemma wrapped_settled_key_is_free_witness :
  let reversed :=
    mkWorld {[ 1 := mkWallet "acme" 10 0 ]}
      [with_note "http 500" (with_tx_status REVERSED hold1);
       mkCreditTransaction 2 1 1 REFUND COMMITTED None None
         "refund of tx 1: http 500" 1000] 3 1000 in
  let ok := mkHttpResponse (Some 200) [("message", "Service did its job!")] in
  default_get_wallet keyed_request = Some 1 ∧
  truthy (headers keyed_request !! "Idempotency-Key") = Some "k1" ∧
  List.filter (key_is 1 "k1") (ledger reversed)
  = [with_note "http 500" (with_tx_status REVERSED hold1)] ∧
  ∃ log,
    _wrapped default_get_wallet echo "u-2" keyed_request (mkSession reversed [])
    = (Returned ok, mkSession reversed ([] ++ log)) ∧
    length (exits log) = 1%nat.
Proof.
  cbv zeta. split; [reflexivity|]. split; [reflexivity|]. split; [reflexivity|].
  apply (wrapped_settled_key_is_free default_get_wallet echo "u-2" keyed_request
           (mkWorld {[ 1 := mkWallet "acme" 10 0 ]}
              [with_note "http 500" (with_tx_status REVERSED hold1);
               mkCreditTransaction 2 1 1 REFUND COMMITTED None None
                 "refund of tx 1: http 500" 1000] 3 1000)
           [] 1 "k1"
           (with_note "http 500" (with_tx_status REVERSED hold1))
           (with_note "http 500" (with_tx_status REVERSED hold1)));
    [reflexivity|reflexivity|reflexivity|reflexivity|reflexivity|discriminate
    |discriminate].
Defined.

(** * middleware.py *)

(** An [ApiKey] row. The table is read by the middleware and written by
    no service; it is handed to the middleware as it stands. *)
Record ApiKey := mkApiKey {
  api_id : Z;
  api_wallet : Z;
  api_key : string;
  is_active : bool;
  label : string;
  api_created_at : Z
}.

Definition api_le (a b : ApiKey) : Prop := api_id a ≤ api_id b.

#[global] Instance api_le_dec : RelDecision api_le.
Proof. intros a b. unfold api_le. apply _. Defined.

(** [ApiKey.objects.filter(key=key, is_active=True).first()]: the match of
    lowest primary key, if any. *)
Definition active_key (api_keys : list ApiKey) (key : string) : option ApiKey :=
  head (merge_sort api_le
          (List.filter (λ a, bool_decide (api_key a = key) && is_active a) api_keys)).

Definition set_wallet (o : option Z) (request : HttpRequest) : HttpRequest :=
  mkHttpRequest o (headers request).

(** [ApiKeyMiddleware.__call__] *)
Definition ApiKeyMiddleware {S A} (api_keys : list ApiKey)
    (get_response : HttpRequest → SE S A) (request : HttpRequest) : SE S A :=
  let key := headers request !! "X-API-Key" in
  let request := set_wallet None request in
  let request :=
    match truthy key with
    | Some key =>
        match active_key api_keys key with
        | Some found => set_wallet (Some (api_wallet found)) request
        | None => request
        end
    | None => request
    end in
  get_response request.

Lemma filter_by_unique_key (api_keys : list ApiKey) (a : ApiKey) :
  NoDup (map api_key api_keys) → In a api_keys → is_active a = true →
  List.filter (λ x, bool_decide (api_key x = api_key a) && is_active x) api_keys = [a].
Proof.
  induction api_keys as [|y l IH]; simpl; [done|].
  intros Hnd Hin Hact. apply NoDup_cons in Hnd as [Hy Hnd].
  rewrite list_elem_of_In in Hy.
  destruct Hin as [->|Hin].
  - rewrite bool_decide_eq_true_2 by done. rewrite Hact. simpl. f_equal.
    apply filter_none. apply List.Forall_forall. intros z Hz.
    rewrite bool_decide_eq_false_2; [done|]. intros Hzk. apply Hy.
    rewrite <- Hzk. by apply in_map.
  - rewrite bool_decide_eq_false_2.
    + simpl. by apply IH.
    + intros Hyk. apply Hy. rewrite Hyk. by apply in_map.
Qed.


(** X18. The middleware decides the wallet of a request by the [X-API-Key]
    header alone: whatever wallet the incoming request carries is thrown
    away, the headers are passed on as they came, and with keys that are
    unique the request that presents the key of an active [ApiKey] goes on
    with the wallet of that key. *)
Theorem middleware_resolves_wallet {S A} (api_keys : list ApiKey)
    (get_response : HttpRequest → SE S A) (request : HttpRequest)
    (a : ApiKey) (claimed : option Z) :
  ApiKeyMiddleware api_keys get_response (set_wallet claimed request)
  = ApiKeyMiddleware api_keys get_response request ∧
  (NoDup (map api_key api_keys) → In a api_keys → is_active a = true →
   api_key a ≠ EmptyString →
   headers request !! "X-API-Key" = Some (api_key a) →
   ApiKeyMiddleware api_keys get_response request
   = get_response (mkHttpRequest (Some (api_wallet a)) (headers request))).
Proof.
  split; [done|].
  intros Hnd Hin Hact Hne Hh. unfold ApiKeyMiddleware. rewrite Hh.
  rewrite truthy_nonempty by done. unfold active_key.
  rewrite filter_by_unique_key by done. done.
Qed.

Definition acme_keys : list ApiKey :=
  [mkApiKey 1 1 "live-key" true "main" 0; mkApiKey 2 1 "old-key" false "retired" 0].

Definition live_request : HttpRequest :=
  mkHttpRequest (Some 99) {[ "X-API-Key" := "live-key" ]}.


Lemma middleware_resolves_wallet_witness :
  let a := mkApiKey 1 1 "live-key" true "main" 0 in
  NoDup (map api_key acme_keys) ∧ In a acme_keys ∧ is_active a = true ∧
  api_key a ≠ EmptyString ∧
  headers live_request !! "X-API-Key" = Some (api_key a) ∧
  ApiKeyMiddleware acme_keys
    (_wrapped default_get_wallet echo "u-1") live_request
  = _wrapped default_get_wallet echo "u-1"
      (mkHttpRequest (Some (api_wallet a)) (headers live_request)).
Proof.
  cbv zeta.
  assert (H1 : NoDup (map api_key acme_keys)) by compute_done.
  assert (H2 : In (mkApiKey 1 1 "live-key" true "main" 0) acme_keys) by (by left).
  split; [exact H1|]. split; [exact H2|]. split; [reflexivity|].
  split; [discriminate|]. split; [reflexivity|].
  apply (proj2 (middleware_resolves_wallet acme_keys
                  (_wrapped default_get_wallet echo "u-1") live_request
                  (mkApiKey 1 1 "live-key" true "main" 0) None));
    [exact H1|exact H2|reflexivity|discriminate|reflexivity].
Defined.



(** * scripts/make_stale.py *)

Definition with_created_at (t : Z) (r : CreditTransaction) : CreditTransaction :=
  mkCreditTransaction (tx_id r) (wallet_id r) (delta r) (tx_type r) (tx_status r)
    (idempotency_key r) (request_id r) (note r) t.

(** [Wallet.objects.only("id", "balance").get(id=wallet_id)] *)
Definition wallet_get (wid : Z) : Prog Wallet :=
  λ w, match wallets w !! wid with
       | Some wl => (Returned wl, w)
       | None => (Raised DoesNotExist, w)
       end.

Definition timezone_now : Prog Z := λ w, (Returned (clock w), w).

(** [CreditTransaction.objects.filter(pk__in=ids).update(created_at=t)],
    the number of rows updated. *)
Definition backdate (ids : list Z) (t : Z) : Prog nat :=
  λ w, (Returned (length (List.filter (λ r, bool_decide (tx_id r ∈ ids)) (ledger w))),
        mkWorld (wallets w)
          (map (λ r, if bool_decide (tx_id r ∈ ids) then with_created_at t r else r)
               (ledger w))
          (next_id w) (clock w)).

(** The loop of [make_stale]: one keyed reservation per draw, the ids
    gathered in order. [draws] are the values of [uuid4().hex[:12]]. *)
Fixpoint reserve_stale (wid amount : Z) (tag : string) (draws : list string)
    : Prog (list Z) :=
  match draws with
  | [] => ret []
  | d :: rest =>
      let! tx := ReserveCreditsService wid amount (Some ("stale-" +:+ d)) None tag in
      let! ids := reserve_stale wid amount tag rest in
      ret (tx_id tx :: ids)
  end.

(** [make_stale(wallet_id, count=, amount=, seconds_ago=, ensure_funds=,
    tag=)]; [hex12 i] is the value the [i]-th turn of the loop draws. *)
Definition make_stale (wallet_id count amount seconds_ago : Z) (ensure_funds : bool)
    (tag : string) (hex12 : nat → string) : Prog (list Z) :=
  let! w := wallet_get wallet_id in
  let needed := count * amount in
  exec! (if ensure_funds && (balance w <? needed)
         then exec! top_up wallet_id (needed - balance w) (tag +:+ "-topup") in ret tt
         else ret tt) in
  let! now := timezone_now in
  let stale_ts := now - timedelta_seconds seconds_ago in
  let! tx_ids := reserve_stale wallet_id amount tag
                   (map hex12 (seq 0 (Z.to_nat count))) in
  exec! backdate tx_ids stale_ts in
  ret tx_ids.

(** The rows the loop writes, from id [nid] on, created at [t]. *)
Fixpoint seeded_rows (wid amount : Z) (tag : string) (t : Z) (draws : list string)
    (nid : Z) : list CreditTransaction :=
  match draws with
  | [] => []
  | d :: rest =>
      mkCreditTransaction nid wid (- amount) DEBIT PENDING (Some ("stale-" +:+ d))
        None tag t
      :: seeded_rows wid amount tag t rest (nid + 1)
  end.

Lemma seeded_rows_length wid amount tag t draws nid :
  length (seeded_rows wid amount tag t draws nid) = length draws.
Proof. revert nid. induction draws as [|d l IH]; intros nid; simpl; auto. Qed.

Lemma seeded_rows_ids wid amount tag t draws nid :
  Forall (λ r, nid ≤ tx_id r) (seeded_rows wid amount tag t draws nid).
Proof.
  revert nid. induction draws as [|d l IH]; intros nid; simpl; constructor.
  - simpl. lia.
  - eapply Forall_impl; [apply IH|]. intros r Hr. simpl in Hr. lia.
Qed.

Lemma seeded_rows_backdated wid amount tag t t' draws nid :
  map (with_created_at t') (seeded_rows wid amount tag t draws nid)
  = seeded_rows wid amount tag t' draws nid.
Proof.
  revert nid. induction draws as [|d l IH]; intros nid; simpl; [done|].
  by rewrite IH.
Qed.

Definition key_unused (wid : Z) (w : World) (d : string) : Prop :=
  List.filter (key_is wid ("stale-" +:+ d)) (ledger w) = [].

Lemma reserve_stale_run wid amount tag draws :
  0 < amount →
  ∀ w wl,
    wallets w !! wid = Some wl →
    Z.of_nat (length draws) * amount ≤ balance wl →
    NoDup draws → Forall (key_unused wid w) draws →
    reserve_stale wid amount tag draws w
    = (Returned (map tx_id (seeded_rows wid amount tag (clock w) draws (next_id w))),
       mkWorld
         (<[wid := with_balance (balance wl - Z.of_nat (length draws) * amount) wl]>
            (wallets w))
         (ledger w ++ seeded_rows wid amount tag (clock w) draws (next_id w))
         (next_id w + Z.of_nat (length draws)) (clock w)).
Proof.
  intros Ha. induction draws as [|d rest IH]; intros w wl Hw Hb Hnd Hfresh.
  - simpl. unfold ret. f_equal. destruct w as [ws l nid clk]. simpl in *.
    rewrite app_nil_r, Z.add_0_r. f_equal.
    replace (balance wl - Z.of_nat 0 * amount) with (balance wl) by lia.
    rewrite with_balance_same. symmetry. by apply insert_id.
  - apply NoDup_cons in Hnd as [Hd Hnd]. apply Forall_cons in Hfresh as [Hfd Hfresh].
    cbn [reserve_stale length] in *. unfold bind at 1.
    rewrite reserve_credits_run.
    destruct (Z.leb_spec amount 0) as [|_]; [lia|].
    rewrite truthy_nonempty by (intros H; cbv in H; discriminate H).
    unfold key_unused in Hfd. rewrite Hfd.
    rewrite (reserve_fresh_paid _ _ _ _ _ _ wl) by (done || lia).
    unfold bind at 1.
    rewrite (IH (reserved_world wid amount (Some ("stale-" +:+ d)) None tag wl w)
               (with_balance (balance wl - amount) wl)); cycle 1.
    + simpl. apply lookup_insert_eq.
    + simpl. lia.
    + done.
    + apply Forall_forall. intros d' Hd'. unfold key_unused. simpl.
      rewrite List.filter_app. rewrite Forall_forall in Hfresh.
      rewrite (Hfresh d' Hd'). simpl. unfold key_is at 1. simpl.
      rewrite bool_decide_eq_false_2; [by rewrite andb_false_r|].
      intros Heq. assert (d = d') as -> by (cbv in Heq; by injection Heq).
      done.
    + unfold ret. simpl. f_equal. f_equal.
      * rewrite insert_insert_eq. f_equal. unfold with_balance. simpl. f_equal. lia.
      * by rewrite <- app_assoc.
      * lia.
Qed.

Lemma backdate_appended (old new : list CreditTransaction) (nid t : Z) :
  Forall (λ r, tx_id r < nid) old → Forall (λ r, nid ≤ tx_id r) new →
  map (λ r, if bool_decide (tx_id r ∈ map tx_id new) then with_created_at t r else r)
      (old ++ new)
  = old ++ map (with_created_at t) new.
Proof.
  intros Hold Hnew. rewrite List.map_app. f_equal.
  - rewrite <- (map_id old) at 2. apply map_ext_in. intros r Hr.
    rewrite bool_decide_eq_false_2; [done|]. intros Hin.
    apply list_elem_of_In, in_map_iff in Hin as (r' & Hid & Hr').
    rewrite List.Forall_forall in Hold, Hnew.
    specialize (Hold _ Hr). specialize (Hnew _ Hr'). simpl in *. lia.
  - apply map_ext_in. intros r Hr.
    rewrite bool_decide_eq_true_2; [done|]. apply list_elem_of_In. by apply in_map.
Qed.

Lemma seeded_rows_tx_ids wid amount tag t t' draws nid :
  map tx_id (seeded_rows wid amount tag t draws nid)
  = map tx_id (seeded_rows wid amount tag t' draws nid).
Proof.
  revert nid. induction draws as [|d l IH]; intros nid; simpl; [done|].
  by rewrite IH.
Qed.

Lemma seeded_rows_stale wid amount tag t draws nid cutoff :
  t < cutoff →
  Forall (λ r, stale cutoff r = true) (seeded_rows wid amount tag t draws nid).
Proof.
  intros Ht. revert nid. induction draws as [|d l IH]; intros nid; simpl;
    constructor; [|apply IH].
  unfold stale. simpl. by destruct (Z.ltb_spec t cutoff); [|lia].
Qed.

(** The part of [make_stale] that follows the funding. *)
Lemma seed_after_funding wid amount seconds_ago tag draws w0 wl0 :
  0 < amount → wallets w0 !! wid = Some wl0 →
  Z.of_nat (length draws) * amount ≤ balance wl0 →
  seq_ahead w0 → NoDup draws → Forall (key_unused wid w0) draws →
  let stale_ts := clock w0 - timedelta_seconds seconds_ago in
  let rows := seeded_rows wid amount tag stale_ts draws (next_id w0) in
  (let! now := timezone_now in
   let! tx_ids := reserve_stale wid amount tag draws in
   exec! backdate tx_ids (now - timedelta_seconds seconds_ago) in
   ret tx_ids) w0
  = (Returned (map tx_id rows),
     mkWorld
       (<[wid := with_balance (balance wl0 - Z.of_nat (length draws) * amount) wl0]>
          (wallets w0))
       (ledger w0 ++ rows) (next_id w0 + Z.of_nat (length draws)) (clock w0)).
Proof.
  intros Ha Hw Hb Hseq Hnd Hfresh stale_ts rows.
  unfold bind at 1. unfold timezone_now at 1. unfold bind at 1.
  rewrite (reserve_stale_run wid amount tag draws Ha w0 wl0) by done.
  unfold bind, backdate, ret. simpl.
  rewrite (backdate_appended _ _ (next_id w0)); [|done|apply seeded_rows_ids].
  rewrite seeded_rows_backdated.
  by rewrite (seeded_rows_tx_ids _ _ _ (clock w0) stale_ts).
Qed.

(** X20. [make_stale] with [ensure_funds] on a wallet that exists: the wallet is
    topped up to [count * amount] when it holds less, then [count] holds of
    [amount] are written with the keys drawn (distinct and unused), and
    backdated by [seconds_ago]. The ids returned are those of the new rows
    in order, the balance is what was above [count * amount], every older
    row is as it was, and every new row is PENDING and older than any
    cutoff later than the backdated time, that is, due for the sweep. *)
Theorem make_stale_seeds_holds (w : World) (wid count amount seconds_ago : Z)
    (wl : Wallet) (tag : string) (hex12 : nat → string) :
  let draws := map hex12 (seq 0 (Z.to_nat count)) in
  let needed := count * amount in
  let funded :=
    if balance wl <? needed
    then topped_up_world wid (needed - balance wl) (tag +:+ "-topup") wl w
    else w in
  let stale_ts := clock w - timedelta_seconds seconds_ago in
  let rows := seeded_rows wid amount tag stale_ts draws (next_id funded) in
  wallets w !! wid = Some wl → 0 < amount → 0 ≤ count → seq_ahead w →
  NoDup draws → Forall (key_unused wid w) draws →
  make_stale wid count amount seconds_ago true tag hex12 w
  = (Returned (map tx_id rows),
     mkWorld
       (<[wid := with_balance (Z.max (balance wl) needed - needed) wl]> (wallets w))
       (ledger funded ++ rows)
       (next_id funded + count) (clock w)) ∧
  length rows = Z.to_nat count ∧
  (∀ cutoff, stale_ts < cutoff → Forall (λ r, stale cutoff r = true) rows).
Proof.
  intros draws needed funded stale_ts rows Hw Ha Hc Hseq Hnd Hfresh.
  assert (Hlen : Z.of_nat (length draws) = count).
  { unfold draws. rewrite length_map, length_seq. lia. }
  split; [|split].
  - unfold make_stale. unfold bind at 1. unfold wallet_get at 1. rewrite Hw.
    fold needed. simpl andb. unfold bind at 1.
    destruct (Z.ltb_spec (balance wl) needed) as [Hshort|Hfull].
    + unfold bind at 1. rewrite top_up_run.
      destruct (Z.leb_spec (needed - balance wl) 0) as [|_]; [lia|].
      rewrite Hw. unfold ret at 1. cbv beta iota.
      pose proof (seed_after_funding wid amount seconds_ago tag draws
                    (topped_up_world wid (needed - balance wl) (tag +:+ "-topup") wl w)
                    (with_balance (balance wl + (needed - balance wl)) wl) Ha) as Hrun.
      cbv zeta in Hrun. fold draws. rewrite Hrun; clear Hrun.
      * unfold funded, rows, stale_ts. simpl. f_equal. f_equal.
        -- rewrite insert_insert_eq. f_equal. unfold with_balance. simpl. f_equal. lia.
        -- lia.
      * simpl. apply lookup_insert_eq.
      * simpl. lia.
      * unfold seq_ahead in *. simpl. apply Forall_app. split.
        -- eapply Forall_impl; [exact Hseq|]. intros r Hr. simpl in *. lia.
        -- apply Forall_singleton. simpl. lia.
      * done.
      * eapply Forall_impl; [exact Hfresh|]. intros d Hd. unfold key_unused in *.
        simpl. rewrite List.filter_app, Hd. simpl. unfold key_is. simpl.
        by rewrite andb_false_r.
    + unfold ret at 1. cbv beta iota.
      pose proof (seed_after_funding wid amount seconds_ago tag draws w wl Ha Hw) as Hrun.
      cbv zeta in Hrun. fold draws. rewrite Hrun by (done || lia); clear Hrun.
      unfold funded, rows, stale_ts. f_equal. f_equal; [|lia].
      f_equal. f_equal. lia.
  - unfold rows. rewrite seeded_rows_length. unfold draws.
    by rewrite length_map, length_seq.
  - intros cutoff Ht. by apply seeded_rows_stale.
Qed.

Lemma make_stale_seeds_holds_witness :
  let hex12 := λ i : nat, pretty i in
  let draws := map hex12 (seq 0 (Z.to_nat 3)) in
  wallets acme !! 1 = Some (mkWallet "acme" 10 0) ∧ 0 < 4 ∧ 0 ≤ 3 ∧
  seq_ahead acme ∧ NoDup draws ∧ Forall (key_unused 1 acme) draws ∧
  make_stale 1 3 4 600 true "seed-stale" hex12 acme
  = (Returned [2; 3; 4],
     mkWorld {[ 1 := mkWallet "acme" 0 0 ]}
       [mkCreditTransaction 1 1 2 CREDIT COMMITTED None None "seed-stale-topup" 1000;
        mkCreditTransaction 2 1 (-4) DEBIT PENDING (Some "stale-0") None "seed-stale"
          (-599999000);
        mkCreditTransaction 3 1 (-4) DEBIT PENDING (Some "stale-1") None "seed-stale"
          (-599999000);
        mkCreditTransaction 4 1 (-4) DEBIT PENDING (Some "stale-2") None "seed-stale"
          (-599999000)]
       5 1000).
Proof.
  cbv zeta.
  assert (H1 : seq_ahead acme) by constructor.
  assert (H2 : NoDup (map (λ i : nat, pretty i) (seq 0 (Z.to_nat 3)))) by compute_done.
  assert (H3 : Forall (key_unused 1 acme) (map (λ i : nat, pretty i) (seq 0 (Z.to_nat 3))))
    by (repeat constructor).
  split; [reflexivity|]. split; [lia|]. split; [lia|]. split; [exact H1|].
  split; [exact H2|]. split; [exact H3|].
  destruct (make_stale_seeds_holds acme 1 3 4 600 (mkWallet "acme" 10 0) "seed-stale"
              (λ i : nat, pretty i) eq_refl ltac:(lia) ltac:(lia) H1 H2 H3) as [-> _].
  reflexivity.
Defined.

(** * Well-formed stores, again *)

(** X21. The services keep the store well formed: after any sequence of
    operations on a store whose ledger ids are distinct and behind the
    sequence, whose rows point to existing wallets and whose PENDING rows
    have no positive delta, all four still hold; a store with an empty
    ledger is of this kind. *)
Theorem store_stays_well_formed (w : World) (ops : list Op) :
  (ledger w = [] → store_ok w) ∧
  (store_ok w → store_ok (run ops w)).
Proof.
  split; [apply empty_ledger_store_ok|].
  intros H. eapply reaches_store_ok; [apply run_reaches|done].
Qed.

Lemma store_stays_well_formed_witness :
  let ops := [OpReserve 1 3 (Some "k1") None "api-request"; OpTopUp 1 5 "gift";
              OpReverse hold3 "late"; OpReserve 7 1 None None "api-request";
              OpTick 400000000; OpSweep 3 (mkSettings None) None (Some 500)] in
  ledger acme = [] ∧ store_ok acme ∧ store_ok (run ops acme).
Proof.
  cbv zeta. split; [reflexivity|].
  assert (H : store_ok acme)
    by exact (proj1 (store_stays_well_formed acme []) eq_refl).
  split; [exact H|].
  exact (proj2 (store_stays_well_formed acme _) H).
Defined.


Lemma reserve_all_or_nothing_witness :
  match ReserveCreditsService 1 3 (Some "k1") None "api-request" acme with
  | (Raised e, w') => wallets w' = wallets acme ∧ ledger w' = ledger acme
  | (Returned tx, w') =>
      (w' = acme ∧ In tx (ledger acme) ∧ wallet_id tx = 1 ∧
       idempotency_key tx = Some "k1" ∧ Some "k1" ≠ None) ∨
      (0 < 3 ∧ tx = new_debit 1 3 (truthy (Some "k1")) None "api-request" acme ∧
       ledger w' = ledger acme ++ [tx] ∧
       ∃ wl, wallets acme !! 1 = Some wl ∧ 3 ≤ balance wl ∧
             wallets w' = <[1 := with_balance (balance wl - 3) wl]> (wallets acme))
  end.
Proof. exact (reserve_all_or_nothing acme 1 3 (Some "k1") None "api-request"). Defined.
